(** * Kueue pending-workload index: resource demand and ordered queues

    A shallow embedding of [pkg/workload/workload.go] and
    [pkg/queue/queue.go], together with the parts of Go's
    [container/heap] that the queue drives, and the properties of the
    demand calculator, the strict-FIFO comparator and the indexed heap. *)

From stdpp Require Import gmap strings list fin_maps.
From Stdlib Require Import ZArith Lia Sorted Ascii.

(** ** Go's [int64]

    Signed 64-bit integers are carried as [Z]; every arithmetic operation
    that can leave the range wraps around in two's complement, as Go does. *)
Module Int64.

Definition min_int : Z := - 2 ^ 63.
Definition max_int : Z := 2 ^ 63 - 1.

Definition in_range (z : Z) : Prop := (min_int ≤ z ≤ max_int)%Z.

Definition wrap (z : Z) : Z := ((z + 2 ^ 63) `mod` 2 ^ 64 - 2 ^ 63)%Z.

Definition add (a b : Z) : Z := wrap (a + b).
Definition mul (a b : Z) : Z := wrap (a * b).

End Int64.

(** ** API objects

    The object types live in [api/v1alpha1], [k8s.io/api/core/v1] and
    [k8s.io/apimachinery]; only the fields the two packages read are kept. *)

Abbreviation ResourceName := string (only parsing).

(** [corev1.ResourceCPU]. *)
Definition ResourceCPU : ResourceName := "cpu".

(** A [resource.Quantity] is observed by the code only through its two
    [int64] readings, [MilliValue()] and [Value()]; a quantity is the pair
    of those readings. *)
Record Quantity := mkQuantity {
  MilliValue : Z;
  Value : Z
}.

Abbreviation ResourceList := (gmap ResourceName Quantity).

(** A container, reduced to [c.Resources.Requests]. *)
Record Container := mkContainer {
  Container_Requests : ResourceList
}.

Record PodSpec := mkPodSpec {
  Containers : list Container;
  InitContainers : list Container;
  Overhead : ResourceList
}.

Record PodSet := mkPodSet {
  PodSet_Name : string;
  PodSet_Spec : PodSpec;
  PodSet_Count : Z                      (* int32 *)
}.

Record PodSetFlavors := mkPodSetFlavors {
  PodSetFlavors_Name : string;
  PodSetFlavors_Flavors : gmap ResourceName string
}.

Record Admission := mkAdmission {
  Admission_ClusterQueue : string;
  Admission_PodSetFlavors : list PodSetFlavors
}.

(** [metav1.Time]: an instant, as a number of ticks since the epoch. *)
Abbreviation Time := Z (only parsing).

(** [Time.Before] on two non-nil times: strictly earlier. *)
Definition Time_Before (t u : Time) : bool := (t <? u)%Z.

Record QueuedWorkloadSpec := mkQueuedWorkloadSpec {
  PodSets : list PodSet;
  QueueName : string;
  Spec_Admission : option Admission;
  (** Modelled from the spec: the [Priority] field behind
      [utilpriority.Priority], which is not part of the sources; the
      workload exposes "a numeric priority". *)
  Spec_Priority : Z                     (* int32 *)
}.

Record QueuedWorkload := mkQueuedWorkload {
  Namespace : string;
  Name : string;
  CreationTimestamp : Time;
  Spec : QueuedWorkloadSpec
}.

Module utilpriority.

(** Modelled from the spec: [pkg/util/priority.Priority] is not part of the
    sources; it reads the workload's numeric priority. *)
Definition Priority (w : QueuedWorkload) : Z := Spec_Priority (Spec w).

End utilpriority.

(** ** Package [workload] *)
Module workload.

(** [Requests] maps a resource name to an [int64]; CPU is in milli-units. *)
Abbreviation Requests := (gmap ResourceName Z).

(** Reading [r[name]]: a missing key reads as zero. *)
Definition get (r : Requests) (name : ResourceName) : Z :=
  default 0%Z (r !! name).

Record PodSetResources := mkPodSetResources {
  PSR_Name : string;
  PSR_Requests : Requests;
  PSR_Flavors : gmap ResourceName string
}.

Record Info := mkInfo {
  Obj : QueuedWorkload;
  TotalRequests : list PodSetResources;
  Info_ClusterQueue : string
}.

Definition Key (w : QueuedWorkload) : string :=
  Namespace w +:+ "/" +:+ Name w.

Definition max (v1 v2 : Z) : Z :=
  if (v1 >? v2)%Z then v1 else v2.

Definition ResourceValue (name : ResourceName) (q : Quantity) : Z :=
  if decide (name = ResourceCPU) then MilliValue q else Value q.

(** [for name, quant := range rl { r[name] = ResourceValue(name, quant) }] *)
Definition newRequests (rl : ResourceList) : Requests :=
  map_fold (λ name quant (r : Requests), <[name := ResourceValue name quant]> r)
           ∅ rl.

(** [for name, val := range o { r[name] += val }] *)
Definition add (r o : Requests) : Requests :=
  map_fold (λ name val (r : Requests), <[name := Int64.add (get r name) val]> r)
           r o.

(** [for name, val := range o { r[name] = max(r[name], val) }] *)
Definition setMax (r o : Requests) : Requests :=
  map_fold (λ name val (r : Requests), <[name := max (get r name) val]> r)
           r o.

(** [for name := range r { r[name] *= f }]: every stored value is
    rewritten, no key is added or removed. *)
Definition scale (r : Requests) (f : Z) : Requests :=
  (λ v, Int64.mul v f) <$> r.

Definition podRequests (spec : PodSpec) : Requests :=
  let res : Requests := ∅ in
  let res := foldl (λ res c, add res (newRequests (Container_Requests c)))
                   res (Containers spec) in
  let res := foldl (λ res c, setMax res (newRequests (Container_Requests c)))
                   res (InitContainers spec) in
  add res (newRequests (Overhead spec)).

(** The table built from [spec.Admission.PodSetFlavors]; a later entry
    with the same name overwrites an earlier one. *)
Definition podSetFlavorsOf (a : Admission)
  : gmap string (gmap ResourceName string) :=
  foldl (λ m ps, <[PodSetFlavors_Name ps := PodSetFlavors_Flavors ps]> m)
        ∅ (Admission_PodSetFlavors a).

(** Body of the loop over [spec.PodSets]. A nil flavor map and an empty
    one are both [∅]. *)
Definition podSetResources
    (podSetFlavors : gmap string (gmap ResourceName string))
    (ps : PodSet) : PodSetResources :=
  let requests := scale (podRequests (PodSet_Spec ps)) (PodSet_Count ps) in
  let flavors := default ∅ (podSetFlavors !! PodSet_Name ps) in
  mkPodSetResources (PodSet_Name ps) requests flavors.

(** A nil slice and an empty slice are both [[]]. *)
Definition totalRequests (spec : QueuedWorkloadSpec) : list PodSetResources :=
  match PodSets spec with
  | [] => []
  | _ =>
      let podSetFlavors :=
        match Spec_Admission spec with
        | Some a => podSetFlavorsOf a
        | None => ∅
        end in
      foldl (λ res ps, res ++ [podSetResources podSetFlavors ps])
            [] (PodSets spec)
  end.

Definition NewInfo (w : QueuedWorkload) : Info :=
  mkInfo w (totalRequests (Spec w)) "".

End workload.

(** ** Package [queue] *)

(** [Queue] is the internal implementation of [kueue.Queue]. The map holds
    pointers to [workload.Info]; nothing else in the package keeps such a
    pointer, so an assignment through the pointer is an update of the map
    entry. *)
Record Queue := mkQueue {
  Queue_ClusterQueue : string;
  Queue_items : gmap string workload.Info
}.

(** [kueue.QueueingStrategy] is a string type. *)
Abbreviation QueueingStrategy := string (only parsing).

(** [kueue.StrictFIFO]. *)
Definition StrictFIFO : QueueingStrategy := "StrictFIFO".

(** The API object [kueue.Queue], reduced to [Spec.ClusterQueue]. *)
Record apiQueue := mkApiQueue {
  apiQueue_ClusterQueue : string
}.

(** The API object [kueue.ClusterQueue], reduced to
    [Spec.QueueingStrategy]. *)
Record apiClusterQueue := mkApiClusterQueue {
  apiCQ_QueueingStrategy : QueueingStrategy
}.

Abbreviation lessFunc := (workload.Info → workload.Info → bool).

Record heapItem := mkHeapItem {
  obj : workload.Info;
  index : nat
}.

(** [items] maps the key of an object to the object and its index; [heap]
    keeps the keys ordered according to the heap invariant. *)
Record heapImpl := mkHeapImpl {
  heapImpl_items : gmap string heapItem;
  heapImpl_heap : list string;
  heapImpl_less : lessFunc
}.

Record ClusterQueue := mkClusterQueue {
  CQ_QueueingStrategy : QueueingStrategy;
  CQ_heap : heapImpl
}.

(** Errors of the package. *)
Inductive error :=
| InvalidQueueingStrategy (s : QueueingStrategy).

(** [strictFIFO] sorts workloads by priority and, when priorities are
    equal, by creation timestamp. *)
Definition strictFIFO (a b : workload.Info) : bool :=
  let p1 := utilpriority.Priority (workload.Obj a) in
  let p2 := utilpriority.Priority (workload.Obj b) in
  if negb (p1 =? p2)%Z then (p1 >? p2)%Z
  else Time_Before (CreationTimestamp (workload.Obj a))
                   (CreationTimestamp (workload.Obj b)).

(** *** Methods of [heapImpl]

    A run-time panic (index out of range, nil dereference) is [None]. *)
Module heapImpl.

Definition Len (h : heapImpl) : nat := length (heapImpl_heap h).

Definition Less (h : heapImpl) (i j : nat) : option bool :=
  ki ← heapImpl_heap h !! i;
  kj ← heapImpl_heap h !! j;
  a ← heapImpl_items h !! ki;
  b ← heapImpl_items h !! kj;
  Some (heapImpl_less h (obj a) (obj b)).

Definition Swap (h : heapImpl) (i j : nat) : option heapImpl :=
  ki ← heapImpl_heap h !! i;
  kj ← heapImpl_heap h !! j;
  let heap' := <[j := ki]> (<[i := kj]> (heapImpl_heap h)) in
  k ← heap' !! i;
  a ← heapImpl_items h !! k;
  let items1 := <[k := mkHeapItem (obj a) i]> (heapImpl_items h) in
  k' ← heap' !! j;
  b ← items1 !! k';
  let items2 := <[k' := mkHeapItem (obj b) j]> items1 in
  Some (mkHeapImpl items2 heap' (heapImpl_less h)).

Definition Push (h : heapImpl) (wInfo : workload.Info) : heapImpl :=
  let key := workload.Key (workload.Obj wInfo) in
  mkHeapImpl
    (<[key := mkHeapItem wInfo (length (heapImpl_heap h))]> (heapImpl_items h))
    (heapImpl_heap h ++ [key])
    (heapImpl_less h).

(** On an empty slice [len(h.heap)-1] is [-1] and the read panics. *)
Definition Pop (h : heapImpl) : option (workload.Info * heapImpl) :=
  if decide (length (heapImpl_heap h) = 0) then None else
  key ← heapImpl_heap h !! (length (heapImpl_heap h) - 1);
  let heap' := take (length (heapImpl_heap h) - 1) (heapImpl_heap h) in
  it ← heapImpl_items h !! key;
  Some (obj it, mkHeapImpl (delete key (heapImpl_items h)) heap'
                           (heapImpl_less h)).

End heapImpl.

(** *** Go's [container/heap], driving a [heapImpl]

    Indices are naturals: [(j - 1) / 2] is [0] at [j = 0] both with Go's
    truncating division and with the cut-off subtraction here, and the
    overflow test [j1 < 0] of [down] never fires on a slice index. The two
    loops carry a bound on their number of rounds; [None] is returned when
    it is exhausted. *)
Module heap.

Fixpoint up_loop (rounds : nat) (h : heapImpl) (j : nat) : option heapImpl :=
  match rounds with
  | O => None
  | S rounds =>
      let i := (j - 1) / 2 in          (* parent *)
      if decide (i = j) then Some h else
      lt ← heapImpl.Less h j i;
      if negb lt then Some h else
      h' ← heapImpl.Swap h i j;
      up_loop rounds h' i
  end.

Definition up (h : heapImpl) (j : nat) : option heapImpl :=
  up_loop (S j) h j.

Fixpoint down_loop (rounds : nat) (h : heapImpl) (i n : nat)
  : option (heapImpl * nat) :=
  match rounds with
  | O => None
  | S rounds =>
      let j1 := 2 * i + 1 in
      if decide (n ≤ j1) then Some (h, i) else
      let j2 := j1 + 1 in              (* right child *)
      j ← (if decide (j2 < n)
           then lt ← heapImpl.Less h j2 j1; Some (if lt : bool then j2 else j1)
           else Some j1);
      lt ← heapImpl.Less h j i;
      if negb lt then Some (h, i) else
      h' ← heapImpl.Swap h i j;
      down_loop rounds h' j n
  end.

(** Returns the heap and [i > i0]. *)
Definition down (h : heapImpl) (i0 n : nat) : option (heapImpl * bool) :=
  '(h', i) ← down_loop (S n) h i0 n;
  Some (h', bool_decide (i0 < i)).

Definition Push (h : heapImpl) (x : workload.Info) : option heapImpl :=
  let h := heapImpl.Push h x in
  up h (heapImpl.Len h - 1).

(** [n := h.Len() - 1] is [-1] on an empty heap and [Swap(0, -1)] panics. *)
Definition Pop (h : heapImpl) : option (workload.Info * heapImpl) :=
  if decide (heapImpl.Len h = 0) then None else
  let n := heapImpl.Len h - 1 in
  h ← heapImpl.Swap h 0 n;
  '(h, _) ← down h 0 n;
  heapImpl.Pop h.

Definition Remove (h : heapImpl) (i : nat)
  : option (workload.Info * heapImpl) :=
  if decide (heapImpl.Len h = 0) then None else
  let n := heapImpl.Len h - 1 in
  if decide (n ≠ i) then
    h ← heapImpl.Swap h i n;
    '(h, moved) ← down h i n;
    h ← (if negb moved then up h i else Some h);
    heapImpl.Pop h
  else heapImpl.Pop h.

Definition Fix (h : heapImpl) (i : nat) : option heapImpl :=
  '(h, moved) ← down h i (heapImpl.Len h);
  if negb moved then up h i else Some h.

End heap.

(** *** Methods of [Queue] *)
Module Queue.

Definition update (q : Queue) (a : apiQueue) : Queue :=
  mkQueue (apiQueue_ClusterQueue a) (Queue_items q).

Definition newQueue (a : apiQueue) : Queue :=
  update (mkQueue "" ∅) a.

Definition AddOrUpdate (q : Queue) (w : QueuedWorkload) : Queue :=
  let key := workload.Key w in
  match Queue_items q !! key with
  | Some info =>
      (* info.Obj = w *)
      let info := workload.mkInfo w (workload.TotalRequests info)
                                  (workload.Info_ClusterQueue info) in
      mkQueue (Queue_ClusterQueue q) (<[key := info]> (Queue_items q))
  | None =>
      mkQueue (Queue_ClusterQueue q)
              (<[key := workload.NewInfo w]> (Queue_items q))
  end.

End Queue.

(** *** Methods of [ClusterQueue] *)
Module ClusterQueue.

Definition update (cq : ClusterQueue) (a : apiClusterQueue) : ClusterQueue :=
  mkClusterQueue (apiCQ_QueueingStrategy a) (CQ_heap cq).

Definition newClusterQueue (a : apiClusterQueue) : error + ClusterQueue :=
  if decide (apiCQ_QueueingStrategy a = StrictFIFO) then
    let less := strictFIFO in
    let cqImpl := mkClusterQueue "" (mkHeapImpl ∅ [] less) in
    inr (update cqImpl a)
  else inl (InvalidQueueingStrategy (apiCQ_QueueingStrategy a)).

Definition PushIfNotPresent (cq : ClusterQueue) (info : workload.Info)
  : option (bool * ClusterQueue) :=
  match heapImpl_items (CQ_heap cq) !! workload.Key (workload.Obj info) with
  | Some _ => Some (false, cq)
  | None =>
      h ← heap.Push (CQ_heap cq) info;
      Some (true, mkClusterQueue (CQ_QueueingStrategy cq) h)
  end.

Definition PushOrUpdate (cq : ClusterQueue) (w : QueuedWorkload)
  : option ClusterQueue :=
  let key := workload.Key w in
  let info := workload.NewInfo w in
  match heapImpl_items (CQ_heap cq) !! key with
  | None =>
      h ← heap.Push (CQ_heap cq) info;
      Some (mkClusterQueue (CQ_QueueingStrategy cq) h)
  | Some item =>
      (* item.obj = info, through the pointer stored in the map *)
      let h := mkHeapImpl
                 (<[key := mkHeapItem info (index item)]>
                    (heapImpl_items (CQ_heap cq)))
                 (heapImpl_heap (CQ_heap cq))
                 (heapImpl_less (CQ_heap cq)) in
      h ← heap.Fix h (index item);
      Some (mkClusterQueue (CQ_QueueingStrategy cq) h)
  end.

Definition Delete (cq : ClusterQueue) (w : QueuedWorkload)
  : option ClusterQueue :=
  match heapImpl_items (CQ_heap cq) !! workload.Key w with
  | Some item =>
      '(_, h) ← heap.Remove (CQ_heap cq) (index item);
      Some (mkClusterQueue (CQ_QueueingStrategy cq) h)
  | None => Some cq
  end.

(** The result is [nil] ([None]) on an empty queue. *)
Definition Pop (cq : ClusterQueue)
  : option (option workload.Info * ClusterQueue) :=
  if decide (heapImpl.Len (CQ_heap cq) = 0) then Some (None, cq) else
  '(w, h) ← heap.Pop (CQ_heap cq);
  Some (Some w, mkClusterQueue (CQ_QueueingStrategy cq) h).

(** The loop of [AddFromQueue] over the items of the queue, visited in the
    order [ws]. *)
Fixpoint AddFromQueue_range (ws : list workload.Info) (added : bool)
    (cq : ClusterQueue) : option (bool * ClusterQueue) :=
  match ws with
  | [] => Some (added, cq)
  | w :: ws =>
      '(b, cq) ← PushIfNotPresent cq w;
      AddFromQueue_range ws (if b : bool then true else added) cq
  end.

(** The loop of [DeleteFromQueue], visiting the items in the order [ws]. *)
Fixpoint DeleteFromQueue_range (ws : list workload.Info) (cq : ClusterQueue)
  : option ClusterQueue :=
  match ws with
  | [] => Some cq
  | w :: ws =>
      cq ← Delete cq (workload.Obj w);
      DeleteFromQueue_range ws cq
  end.

(** One run of [AddFromQueue] and [DeleteFromQueue], in the order in
    which [map_to_list] enumerates the map. *)
Definition AddFromQueue (cq : ClusterQueue) (q : Queue)
  : option (bool * ClusterQueue) :=
  AddFromQueue_range (map_to_list (Queue_items q)).*2 false cq.

Definition DeleteFromQueue (cq : ClusterQueue) (q : Queue)
  : option ClusterQueue :=
  DeleteFromQueue_range (map_to_list (Queue_items q)).*2 cq.

End ClusterQueue.

(** Go leaves the iteration order of a map unspecified: [ws] is a possible
    order of visit of [q.items] when it lists its values, each once. *)
Definition visits (q : Queue) (ws : list workload.Info) : Prop :=
  ws ≡ₚ (map_to_list (Queue_items q)).*2.

(** ** The demand of a pod set, resource by resource *)

(** What one resource list asks of the resource [n], if it names it. *)
Definition req (rl : ResourceList) (n : ResourceName) : option Z :=
  workload.ResourceValue n <$> rl !! n.

(** The value [podRequests] leaves under [n], read off the three loops:
    the same steps on the single cell [n], in [int64]. *)
Definition cell_sum (acc : Z) (cs : list Container) (n : ResourceName) : Z :=
  foldl (λ acc c, match req (Container_Requests c) n with
                  | Some v => Int64.add acc v
                  | None => acc
                  end) acc cs.

Definition cell_max (acc : Z) (cs : list Container) (n : ResourceName) : Z :=
  foldl (λ acc c, match req (Container_Requests c) n with
                  | Some v => workload.max acc v
                  | None => acc
                  end) acc cs.

Definition cell_demand (spec : PodSpec) (n : ResourceName) : Z :=
  let s := cell_sum 0 (Containers spec) n in
  let m := cell_max s (InitContainers spec) n in
  match req (Overhead spec) n with
  | Some v => Int64.add m v
  | None => m
  end.

(** The demand calculator as the design describes it, in unbounded
    integers: the sum over the regular containers, merged by maximum with
    every init container that names the resource, plus the overhead. *)
Definition demand_sum (acc : Z) (cs : list Container) (n : ResourceName) : Z :=
  foldl (λ acc c, acc + default 0 (req (Container_Requests c) n))%Z acc cs.

Definition demand_max (acc : Z) (cs : list Container) (n : ResourceName) : Z :=
  foldl (λ acc c, match req (Container_Requests c) n with
                  | Some v => Z.max acc v
                  | None => acc
                  end) acc cs.

Definition pod_demand (spec : PodSpec) (n : ResourceName) : Z :=
  (demand_max (demand_sum 0 (Containers spec) n) (InitContainers spec) n
   + default 0 (req (Overhead spec) n))%Z.

Definition podset_demand (ps : PodSet) (n : ResourceName) : Z :=
  (pod_demand (PodSet_Spec ps) n * PodSet_Count ps)%Z.

(** No request of the pod set for [n] is negative. *)
Definition nonneg_requests (spec : PodSpec) (n : ResourceName) : Prop :=
  Forall (λ c, ∀ v, req (Container_Requests c) n = Some v → (0 ≤ v)%Z)
         (Containers spec ++ InitContainers spec)
  ∧ (∀ v, req (Overhead spec) n = Some v → (0 ≤ v)%Z).

(** The pod set of the aggregation example: two containers asking for
    100m and 200m of CPU, an init container asking for 500m, 50m of
    overhead, two replicas. *)
Definition cpu (milli : Z) : ResourceList :=
  {[ ResourceCPU := mkQuantity milli ((milli + 999) / 1000) ]}.

Definition example_podset : PodSet :=
  mkPodSet "main"
    (mkPodSpec [mkContainer (cpu 100); mkContainer (cpu 200)]
               [mkContainer (cpu 500)]
               (cpu 50))
    2.

(** A pod set whose scaled demand leaves [int64]: one container asking for
    [2^62] milli-CPU, two replicas. *)
Definition huge_podset : PodSet :=
  mkPodSet "huge" (mkPodSpec [mkContainer (cpu (2 ^ 62))] [] ∅) 2.

(** ** The indexed heap, seen from outside *)

(** The parent of position [j] in the backing array. *)
Definition parent (j : nat) : nat := (j - 1) / 2.

(** The objects of the heap by key, without the index bookkeeping. *)
Definition contents (h : heapImpl) : gmap string workload.Info :=
  obj <$> heapImpl_items h.

(** The object at position [i] of the backing array. *)
Definition val (h : heapImpl) (i : nat) : option workload.Info :=
  k ← heapImpl_heap h !! i; contents h !! k.

(** The bookkeeping of [heapImpl]: the backing array lists every key of
    the map once, each entry of the map records the position of its key,
    and an object is stored under the key of its workload. *)
Record indexed (h : heapImpl) : Prop := mkIndexed {
  indexed_NoDup : NoDup (heapImpl_heap h);
  indexed_heap : ∀ i k, heapImpl_heap h !! i = Some k →
    ∃ it, heapImpl_items h !! k = Some it ∧ index it = i
          ∧ workload.Key (workload.Obj (obj it)) = k;
  indexed_items : ∀ k it, heapImpl_items h !! k = Some it →
    heapImpl_heap h !! index it = Some k
}.

(** Position [j] does not sort before its parent. *)
Definition above_parent (h : heapImpl) (j : nat) : Prop :=
  heapImpl.Less h j (parent j) = Some false.

(** The binary-heap ordering on the first [n] positions: no position
    other than the root sorts before its parent. *)
Definition heap_ordered_upto (h : heapImpl) (n : nat) : Prop :=
  ∀ j, 0 < j < n → above_parent h j.

Definition heap_ordered (h : heapImpl) : Prop :=
  heap_ordered_upto h (heapImpl.Len h).

(** The first [n] positions are ordered but for the object at [i], which
    may sort before its parent or after its children; the parent of [i]
    still does not sort after the children of [i]. *)
Record hole_at (h : heapImpl) (n i : nat) : Prop := mkHole {
  hole_others : ∀ k, 0 < k < n → k ≠ i → parent k ≠ i → above_parent h k;
  hole_grand : ∀ c, 0 < c < n → parent c = i → 0 < i →
    heapImpl.Less h c (parent i) = Some false
}.

(** A comparator that is a strict weak ordering. *)
Record strict_weak (less : lessFunc) : Prop := mkStrictWeak {
  less_irrefl : ∀ a, less a a = false;
  less_trans : ∀ a b c, less a b = true → less b c = true → less a c = true;
  less_negtrans : ∀ a b c,
    less a b = false → less b c = false → less a c = false
}.

(** ** Runs of a [ClusterQueue] *)

Inductive op :=
| OpPushIfNotPresent (info : workload.Info)
| OpPushOrUpdate (w : QueuedWorkload)
| OpDelete (w : QueuedWorkload)
| OpPop
| OpAddFromQueue (ws : list workload.Info)
| OpDeleteFromQueue (ws : list workload.Info).

Definition run_op (cq : ClusterQueue) (o : op) : option ClusterQueue :=
  match o with
  | OpPushIfNotPresent info => snd <$> ClusterQueue.PushIfNotPresent cq info
  | OpPushOrUpdate w => ClusterQueue.PushOrUpdate cq w
  | OpDelete w => ClusterQueue.Delete cq w
  | OpPop => snd <$> ClusterQueue.Pop cq
  | OpAddFromQueue ws => snd <$> ClusterQueue.AddFromQueue_range ws false cq
  | OpDeleteFromQueue ws => ClusterQueue.DeleteFromQueue_range ws cq
  end.

Fixpoint run_ops (cq : ClusterQueue) (os : list op) : option ClusterQueue :=
  match os with
  | [] => Some cq
  | o :: os => cq ← run_op cq o; run_ops cq os
  end.

(** The cluster queues the package can build: a new one, then any run of
    operations. *)
Definition reachable (cq : ClusterQueue) : Prop :=
  ∃ a cq0 os,
    ClusterQueue.newClusterQueue a = inr cq0 ∧ run_ops cq0 os = Some cq.

(** The queues the package can build: a new one, then any number of
    [AddOrUpdate]. *)
Inductive reachable_queue : Queue → Prop :=
| reachable_newQueue a : reachable_queue (Queue.newQueue a)
| reachable_update q a :
    reachable_queue q → reachable_queue (Queue.update q a)
| reachable_AddOrUpdate q w :
    reachable_queue q → reachable_queue (Queue.AddOrUpdate q w).

(** What holds of every reachable cluster queue. *)
Record cq_inv (cq : ClusterQueue) : Prop := mkCqInv {
  inv_less : heapImpl_less (CQ_heap cq) = strictFIFO;
  inv_indexed : indexed (CQ_heap cq);
  inv_ordered : heap_ordered (CQ_heap cq)
}.

(** The items of [ws] whose workload key is not in the index of [cq]. *)
Definition absent (cq : ClusterQueue) (ws : list workload.Info)
  : list workload.Info :=
  filter (λ w, heapImpl_items (CQ_heap cq)
               !! workload.Key (workload.Obj w) = None) ws.

(** Workloads for the examples. *)
Definition job (name : string) (priority : Z) (created : Time)
    (pods : list PodSet) : QueuedWorkload :=
  mkQueuedWorkload "ns" name created
    (mkQueuedWorkloadSpec pods "queue" None priority).

Definition pods_cpu (milli : Z) : list PodSet :=
  [mkPodSet "main" (mkPodSpec [mkContainer (cpu milli)] [] ∅) 1].

Definition job_old : QueuedWorkload := job "job" 0 1 (pods_cpu 100).
Definition job_new : QueuedWorkload := job "job" 0 1 (pods_cpu 200).

Definition new_cq : ClusterQueue :=
  mkClusterQueue StrictFIFO (mkHeapImpl ∅ [] strictFIFO).

(** The exchange of the positions [i] and [j]. *)
Definition transp (i j k : nat) : nat :=
  if decide (k = i) then j else if decide (k = j) then i else k.

(** [h'] holds the same objects as [h] under the same comparator, in a
    backing array of the same length. *)
Record same_objects (h h' : heapImpl) : Prop := mkSameObjects {
  same_less : heapImpl_less h' = heapImpl_less h;
  same_contents : contents h' = contents h;
  same_length : length (heapImpl_heap h') = length (heapImpl_heap h)
}.

(** No two positions of the backing array hold objects with the same
    workload key. *)
Definition unique_keys (cq : ClusterQueue) : Prop :=
  ∀ i j a b,
    val (CQ_heap cq) i = Some a → val (CQ_heap cq) j = Some b →
    workload.Key (workload.Obj a) = workload.Key (workload.Obj b) → i = j.

(** Every entry of the queue is stored under the key of its workload. *)
Definition keyed (q : Queue) : Prop :=
  ∀ k info, Queue_items q !! k = Some info →
            workload.Key (workload.Obj info) = k.

(** The four workloads of the pop-order example and a cluster queue that
    received them in the order 5, 5, 3, 9. *)
Definition job_a : QueuedWorkload := job "a" 5 10 [].
Definition job_b : QueuedWorkload := job "b" 5 20 [].
Definition job_c : QueuedWorkload := job "c" 3 30 [].
Definition job_d : QueuedWorkload := job "d" 9 40 [].

Definition example_ops : list op :=
  [OpPushOrUpdate job_a; OpPushOrUpdate job_b;
   OpPushOrUpdate job_c; OpPushOrUpdate job_d].

Definition example_cq : ClusterQueue :=
  default new_cq (run_ops new_cq example_ops).

(** A queue holding [job_a] and [job_b]. *)
Definition example_queue : Queue :=
  Queue.AddOrUpdate
    (Queue.AddOrUpdate (Queue.newQueue (mkApiQueue "cq")) job_a) job_b.

(** [n] calls of [Pop] in a row, with the results in the order in which
    they are returned. *)
Fixpoint pops (n : nat) (cq : ClusterQueue)
  : option (list (option workload.Info) * ClusterQueue) :=
  match n with
  | O => Some ([], cq)
  | S n =>
      '(x, cq) ← ClusterQueue.Pop cq;
      '(xs, cq) ← pops n cq;
      Some (x :: xs, cq)
  end.

(** [a] is popped before [b]. *)
Definition before (a b : workload.Info) : Prop := strictFIFO a b = true.

(** A cluster queue holding [job_a] only. *)
Definition example_cq_a : ClusterQueue :=
  default new_cq (run_ops new_cq [OpPushOrUpdate job_a]).

(** ** Further parts of the two packages *)

(** No ['/'] occurs in [s]; the names of Kubernetes namespaces are such
    strings. *)
Fixpoint slash_free (s : string) : bool :=
  match s with
  | EmptyString => true
  | String c s => if Ascii.eqb c "/"%char then false else slash_free s
  end.

(** The resource [n] is named by a container, an init container or the
    overhead of the pod. *)
Definition names (spec : PodSpec) (n : ResourceName) : Prop :=
  Exists (λ c, is_Some (Container_Requests c !! n))
         (Containers spec ++ InitContainers spec)
  ∨ is_Some (Overhead spec !! n).

(** What the three loops of [podRequests] leave in the cell [n] of the
    map, starting from the cell [acc]: [None] while no list has named
    [n]. *)
Definition slot_sum (acc : option Z) (cs : list Container)
    (n : ResourceName) : option Z :=
  foldl (λ acc c, match req (Container_Requests c) n with
                  | Some v => Some (Int64.add (default 0%Z acc) v)
                  | None => acc
                  end) acc cs.

Definition slot_max (acc : option Z) (cs : list Container)
    (n : ResourceName) : option Z :=
  foldl (λ acc c, match req (Container_Requests c) n with
                  | Some v => Some (workload.max (default 0%Z acc) v)
                  | None => acc
                  end) acc cs.

(** [resource.Format]. *)
Inductive Format := DecimalSI | BinarySI.

(** [corev1.ResourceMemory], [corev1.ResourceEphemeralStorage] and
    [corev1.ResourceHugePagesPrefix]. *)
Definition ResourceMemory : ResourceName := "memory".
Definition ResourceEphemeralStorage : ResourceName := "ephemeral-storage".
Definition ResourceHugePagesPrefix : string := "hugepages-".

(** [workload.ResourceQuantity]. The constructors of [resource.Quantity]
    belong to [k8s.io/apimachinery] and are taken as parameters. *)
Definition ResourceQuantity
    (NewMilliQuantity NewQuantity : Z → Format → Quantity)
    (name : ResourceName) (v : Z) : Quantity :=
  if decide (name = ResourceCPU) then NewMilliQuantity v DecimalSI
  else if decide (name = ResourceMemory ∨ name = ResourceEphemeralStorage)
  then NewQuantity v BinarySI
  else if String.prefix ResourceHugePagesPrefix name
  then NewQuantity v BinarySI
  else NewQuantity v DecimalSI.

(** The table of flavors [totalRequests] builds from the admission, if
    any. *)
Definition flavorsTable (spec : QueuedWorkloadSpec)
  : gmap string (gmap ResourceName string) :=
  match Spec_Admission spec with
  | Some a => workload.podSetFlavorsOf a
  | None => ∅
  end.

(** The metadata of the API object [kueue.Queue] that the keys read. *)
Record apiQueueMeta := mkApiQueueMeta {
  apiQueue_Namespace : string;
  apiQueue_Name : string
}.

(** The two key functions of package [queue]. *)
Module queue.

(** [Key] is the key used to index the queue. *)
Definition Key (q : apiQueueMeta) : string :=
  apiQueue_Namespace q +:+ "/" +:+ apiQueue_Name q.

(** [queueKeyForWorkload] is the key to find the queue for the workload in
    the index. *)
Definition queueKeyForWorkload (w : QueuedWorkload) : string :=
  Namespace w +:+ "/" +:+ QueueName (Spec w).

End queue.

(** [a] does not sort after [b]. *)
Definition not_after (a b : workload.Info) : Prop := strictFIFO b a = false.

(** The workload keys of a list of infos. *)
Definition keys_of (ws : list workload.Info) : list string :=
  (λ w, workload.Key (workload.Obj w)) <$> ws.

(** ** Facts about [int64] *)

Lemma wrap_in_range z : Int64.in_range z → Int64.wrap z = z.
Proof.
  unfold Int64.in_range, Int64.min_int, Int64.max_int, Int64.wrap.
  intros Hz. rewrite Z.mod_small; lia.
Qed.

Lemma max_Zmax v1 v2 : workload.max v1 v2 = Z.max v1 v2.
Proof. unfold workload.max. destruct (Z.gtb_spec v1 v2); lia. Qed.

(** ** The maps of [Requests], key by key *)

Lemma lookup_newRequests (rl : ResourceList) (n : ResourceName) :
  workload.newRequests rl !! n = req rl n.
Proof.
  unfold workload.newRequests, req. revert n.
  apply (map_fold_weak_ind
           (λ (r : gmap ResourceName Z) (m : ResourceList),
              ∀ n, r !! n = workload.ResourceValue n <$> m !! n)).
  - intros n. by rewrite !lookup_empty.
  - intros i x m r Hi IH n. destruct (decide (i = n)) as [->|Hne].
    + by rewrite !lookup_insert_eq.
    + rewrite !lookup_insert_ne by done. apply IH.
Qed.

Lemma get_insert_eq (r : gmap ResourceName Z) n v :
  workload.get (<[n := v]> r) n = v.
Proof. unfold workload.get. by rewrite lookup_insert_eq. Qed.

Lemma get_insert_ne (r : gmap ResourceName Z) n m v :
  n ≠ m → workload.get (<[n := v]> r) m = workload.get r m.
Proof. intros. unfold workload.get. by rewrite lookup_insert_ne. Qed.

Lemma get_add (r o : gmap ResourceName Z) (n : ResourceName) :
  workload.get (workload.add r o) n =
  match o !! n with
  | Some v => Int64.add (workload.get r n) v
  | None => workload.get r n
  end.
Proof.
  unfold workload.add. revert n.
  apply (map_fold_weak_ind
           (λ (r' : gmap ResourceName Z) (m : gmap ResourceName Z),
              ∀ n, workload.get r' n =
                   match m !! n with
                   | Some v => Int64.add (workload.get r n) v
                   | None => workload.get r n
                   end)).
  - intros n. by rewrite lookup_empty.
  - intros i x m r' Hi IH n. destruct (decide (i = n)) as [->|Hne].
    + rewrite get_insert_eq, lookup_insert_eq, IH, Hi. done.
    + rewrite get_insert_ne, lookup_insert_ne by done. apply IH.
Qed.

Lemma get_setMax (r o : gmap ResourceName Z) (n : ResourceName) :
  workload.get (workload.setMax r o) n =
  match o !! n with
  | Some v => workload.max (workload.get r n) v
  | None => workload.get r n
  end.
Proof.
  unfold workload.setMax. revert n.
  apply (map_fold_weak_ind
           (λ (r' : gmap ResourceName Z) (m : gmap ResourceName Z),
              ∀ n, workload.get r' n =
                   match m !! n with
                   | Some v => workload.max (workload.get r n) v
                   | None => workload.get r n
                   end)).
  - intros n. by rewrite lookup_empty.
  - intros i x m r' Hi IH n. destruct (decide (i = n)) as [->|Hne].
    + rewrite get_insert_eq, lookup_insert_eq, IH, Hi. done.
    + rewrite get_insert_ne, lookup_insert_ne by done. apply IH.
Qed.

Lemma get_scale (r : gmap ResourceName Z) (f : Z) (n : ResourceName) :
  workload.get (workload.scale r f) n = Int64.mul (workload.get r n) f.
Proof.
  unfold workload.get, workload.scale. rewrite lookup_fmap.
  destruct (r !! n); simpl; [done|]. by vm_compute.
Qed.

Lemma get_fold_add (cs : list Container) (r : gmap ResourceName Z) n :
  workload.get
    (foldl (λ res c, workload.add res
                       (workload.newRequests (Container_Requests c))) r cs) n
  = cell_sum (workload.get r n) cs n.
Proof.
  revert r. induction cs as [|c cs IH]; intros r; simpl; [done|].
  rewrite IH. unfold cell_sum. simpl. f_equal.
  rewrite get_add, lookup_newRequests. done.
Qed.

Lemma get_fold_setMax (cs : list Container) (r : gmap ResourceName Z) n :
  workload.get
    (foldl (λ res c, workload.setMax res
                       (workload.newRequests (Container_Requests c))) r cs) n
  = cell_max (workload.get r n) cs n.
Proof.
  revert r. induction cs as [|c cs IH]; intros r; simpl; [done|].
  rewrite IH. unfold cell_max. simpl. f_equal.
  rewrite get_setMax, lookup_newRequests. done.
Qed.

(** [podRequests], read at one resource name. *)
Lemma get_podRequests (spec : PodSpec) (n : ResourceName) :
  workload.get (workload.podRequests spec) n = cell_demand spec n.
Proof.
  unfold workload.podRequests, cell_demand.
  rewrite get_add, lookup_newRequests, get_fold_setMax, get_fold_add.
  done.
Qed.

(** The requests of one entry of [totalRequests], read at one name. *)
Lemma get_podSetResources fl (ps : PodSet) (n : ResourceName) :
  workload.get (workload.PSR_Requests (workload.podSetResources fl ps)) n
  = Int64.mul (cell_demand (PodSet_Spec ps) n) (PodSet_Count ps).
Proof. simpl. by rewrite get_scale, get_podRequests. Qed.

(** ** Exactness of the demand while it stays inside [int64] *)

Lemma demand_sum_mono (cs : list Container) n acc :
  Forall (λ c, ∀ v, req (Container_Requests c) n = Some v → (0 ≤ v)%Z) cs →
  (acc ≤ demand_sum acc cs n)%Z.
Proof.
  intros Hcs. revert acc.
  induction Hcs as [|c cs Hc _ IH]; intros acc; simpl; [lia|].
  etrans; [|apply IH].
  destruct (req (Container_Requests c) n) as [v|] eqn:E; simpl; [|lia].
  specialize (Hc v eq_refl). lia.
Qed.

Lemma demand_max_mono (cs : list Container) n acc :
  (acc ≤ demand_max acc cs n)%Z.
Proof.
  revert acc. induction cs as [|c cs IH]; intros acc; simpl; [lia|].
  etrans; [|apply IH].
  destruct (req (Container_Requests c) n); lia.
Qed.

Lemma cell_sum_exact (cs : list Container) n acc :
  (0 ≤ acc)%Z →
  Forall (λ c, ∀ v, req (Container_Requests c) n = Some v → (0 ≤ v)%Z) cs →
  (demand_sum acc cs n ≤ Int64.max_int)%Z →
  cell_sum acc cs n = demand_sum acc cs n.
Proof.
  intros Hacc Hcs. revert acc Hacc.
  induction Hcs as [|c cs Hc Hcs IH]; intros acc Hacc Hmax; simpl; [done|].
  simpl in Hmax.
  pose proof (demand_sum_mono cs n
                (acc + default 0 (req (Container_Requests c) n))%Z Hcs) as Hm.
  destruct (req (Container_Requests c) n) as [v|] eqn:E; simpl in *.
  - specialize (Hc v eq_refl).
    unfold Int64.add. rewrite wrap_in_range.
    + apply IH; [lia|done].
    + unfold Int64.in_range, Int64.min_int. lia.
  - rewrite Z.add_0_r in Hmax. rewrite Z.add_0_r. by apply IH.
Qed.

Lemma cell_max_exact (cs : list Container) n acc :
  cell_max acc cs n = demand_max acc cs n.
Proof.
  revert acc. induction cs as [|c cs IH]; intros acc; simpl; [done|].
  destruct (req (Container_Requests c) n); [|done].
  by rewrite max_Zmax.
Qed.

Lemma cell_demand_exact (spec : PodSpec) n :
  nonneg_requests spec n →
  (pod_demand spec n ≤ Int64.max_int)%Z →
  cell_demand spec n = pod_demand spec n ∧ (0 ≤ pod_demand spec n)%Z.
Proof.
  intros [Hcs Ho] Hmax. apply Forall_app in Hcs as [Hcs _].
  unfold cell_demand, pod_demand in *.
  pose proof (demand_sum_mono (Containers spec) n 0 Hcs) as Hs.
  pose proof (demand_max_mono (InitContainers spec) n
                (demand_sum 0 (Containers spec) n)) as Hm.
  assert (0 ≤ default 0 (req (Overhead spec) n))%Z as Ho'.
  { destruct (req (Overhead spec) n) as [v|]; simpl; [by apply Ho|lia]. }
  rewrite cell_sum_exact, cell_max_exact by (done || lia).
  split; [|lia].
  destruct (req (Overhead spec) n) as [v|]; simpl in *; [|lia].
  unfold Int64.add. apply wrap_in_range.
  unfold Int64.in_range, Int64.min_int. lia.
Qed.

(** ** Resource aggregation *)

(** C1, as the code computes it: with containers asking for 100m and 200m
    of CPU, one init container asking for 500m, 50m of overhead and two
    replicas, the CPU demand of the pod set is
    [(max(500, 100 + 200) + 50) * 2 = 1100] milli-units: the overhead is
    added after the maximum with the init container is taken. *)
Theorem example_cpu_demand fl (ps : PodSet) (c1 c2 i1 : Container) :
  Containers (PodSet_Spec ps) = [c1; c2] →
  InitContainers (PodSet_Spec ps) = [i1] →
  req (Container_Requests c1) ResourceCPU = Some 100%Z →
  req (Container_Requests c2) ResourceCPU = Some 200%Z →
  req (Container_Requests i1) ResourceCPU = Some 500%Z →
  req (Overhead (PodSet_Spec ps)) ResourceCPU = Some 50%Z →
  PodSet_Count ps = 2%Z →
  workload.get (workload.PSR_Requests (workload.podSetResources fl ps))
               ResourceCPU
  = ((Z.max 500 (100 + 200) + 50) * 2)%Z
  ∧ ((Z.max 500 (100 + 200) + 50) * 2 = 1100)%Z.
Proof.
  intros Hcs His Hc1 Hc2 Hi1 Ho Hcount.
  rewrite get_podSetResources. unfold cell_demand, cell_sum, cell_max.
  rewrite Hcs, His, Hcount. simpl. rewrite Hc1, Hc2, Hi1, Ho.
  by vm_compute.
Qed.

Lemma example_cpu_demand_witness :
  workload.get
    (workload.PSR_Requests (workload.podSetResources ∅ example_podset))
    ResourceCPU
  = ((Z.max 500 (100 + 200) + 50) * 2)%Z
  ∧ ((Z.max 500 (100 + 200) + 50) * 2 = 1100)%Z.
Proof.
  apply (example_cpu_demand ∅ example_podset
           (mkContainer (cpu 100)) (mkContainer (cpu 200))
           (mkContainer (cpu 500)));
    reflexivity.
Defined.

(** C1 as stated fails: on the pod set of the example the CPU demand is
    not [max(500, 100 + 200 + 50) * 2 = 1000]. *)
Lemma example_cpu_demand_not_1000 :
  workload.get
    (workload.PSR_Requests (workload.podSetResources ∅ example_podset))
    ResourceCPU
  ≠ (Z.max 500 (100 + 200 + 50) * 2)%Z.
Proof. by vm_compute. Qed.

(** C2, within the range of [int64]: when no request for the resource is
    negative, the replica count is not negative and neither the per-pod
    demand nor its product with the replica count exceeds the largest
    [int64], the stored demand is the sum over the regular containers,
    merged by maximum with each init container, plus the overhead, times
    the replica count, all in exact integer arithmetic. *)
Theorem podset_demand_exact fl (ps : PodSet) (n : ResourceName) :
  nonneg_requests (PodSet_Spec ps) n →
  (0 ≤ PodSet_Count ps)%Z →
  (pod_demand (PodSet_Spec ps) n ≤ Int64.max_int)%Z →
  (podset_demand ps n ≤ Int64.max_int)%Z →
  workload.get (workload.PSR_Requests (workload.podSetResources fl ps)) n
  = podset_demand ps n.
Proof.
  intros Hnn Hcount Hpod Htotal.
  rewrite get_podSetResources.
  destruct (cell_demand_exact _ _ Hnn Hpod) as [-> Hpos].
  unfold Int64.mul, podset_demand in *. apply wrap_in_range.
  unfold Int64.in_range, Int64.min_int. nia.
Qed.

Lemma podset_demand_exact_witness :
  workload.get
    (workload.PSR_Requests (workload.podSetResources ∅ example_podset))
    ResourceCPU
  = podset_demand example_podset ResourceCPU.
Proof.
  apply (podset_demand_exact ∅ example_podset ResourceCPU).
  - split.
    + repeat constructor; intros v Hv; vm_compute in Hv;
        injection Hv as <-; lia.
    + intros v Hv. vm_compute in Hv. injection Hv as <-. lia.
  - simpl. lia.
  - by vm_compute.
  - by vm_compute.
Defined.

(** C2 as stated fails where the arithmetic leaves [int64]: two replicas
    of a pod asking for [2^62] milli-CPU are stored as [-2^63], not as
    the exact product [2^63]. *)
Lemma podset_demand_wraps :
  workload.get
    (workload.PSR_Requests (workload.podSetResources ∅ huge_podset))
    ResourceCPU
  = (- 2 ^ 63)%Z
  ∧ podset_demand huge_podset ResourceCPU = (2 ^ 63)%Z
  ∧ workload.get
      (workload.PSR_Requests (workload.podSetResources ∅ huge_podset))
      ResourceCPU
    ≠ podset_demand huge_podset ResourceCPU.
Proof. by vm_compute. Qed.

(** ** The strict-FIFO comparator *)

Lemma strictFIFO_true (a b : workload.Info) :
  strictFIFO a b = true ↔
  (utilpriority.Priority (workload.Obj a)
     > utilpriority.Priority (workload.Obj b))%Z
  ∨ (utilpriority.Priority (workload.Obj a)
       = utilpriority.Priority (workload.Obj b)
     ∧ (CreationTimestamp (workload.Obj a)
          < CreationTimestamp (workload.Obj b))%Z).
Proof.
  unfold strictFIFO, Time_Before.
  destruct (Z.eqb_spec (utilpriority.Priority (workload.Obj a))
                       (utilpriority.Priority (workload.Obj b))) as [E|E];
    simpl.
  - rewrite Z.ltb_lt. split; [by right|]. intros [?|[_ ?]]; [lia|done].
  - rewrite Z.gtb_gt. split; [by left|]. intros [?|[? _]]; [lia|done].
Qed.

Lemma strictFIFO_false (a b : workload.Info) :
  strictFIFO a b = false ↔
  (utilpriority.Priority (workload.Obj a)
     < utilpriority.Priority (workload.Obj b))%Z
  ∨ (utilpriority.Priority (workload.Obj a)
       = utilpriority.Priority (workload.Obj b)
     ∧ (CreationTimestamp (workload.Obj b)
          ≤ CreationTimestamp (workload.Obj a))%Z).
Proof.
  rewrite <- not_true_iff_false, strictFIFO_true. lia.
Qed.

Lemma strictFIFO_strict_weak : strict_weak strictFIFO.
Proof.
  split.
  - intros a. apply strictFIFO_false. lia.
  - intros a b c. rewrite !strictFIFO_true. lia.
  - intros a b c. rewrite !strictFIFO_false. lia.
Qed.

(** C4: [strictFIFO a b] holds exactly when [a] has the strictly greater
    priority, or the priorities are equal and [a] was created strictly
    earlier. *)
Theorem strictFIFO_spec (a b : workload.Info) :
  strictFIFO a b = true ↔
  (utilpriority.Priority (workload.Obj a)
     > utilpriority.Priority (workload.Obj b))%Z
  ∨ (utilpriority.Priority (workload.Obj a)
       = utilpriority.Priority (workload.Obj b)
     ∧ (CreationTimestamp (workload.Obj a)
          < CreationTimestamp (workload.Obj b))%Z).
Proof.
  unfold strictFIFO, utilpriority.Priority, Time_Before.
  destruct (Z.eqb_spec (Spec_Priority (Spec (workload.Obj a)))
                       (Spec_Priority (Spec (workload.Obj b)))) as [E|E];
    simpl; [rewrite Z.ltb_lt|rewrite Z.gtb_gt]; lia.
Qed.

(** ** Construction and the empty queue *)

(** C9: construction fails with the invalid-strategy error, and yields no
    queue, on every identifier other than strict FIFO; on strict FIFO it
    yields an empty queue ordered by [strictFIFO]. *)
Theorem newClusterQueue_spec (a : apiClusterQueue) :
  (apiCQ_QueueingStrategy a ≠ StrictFIFO →
   ClusterQueue.newClusterQueue a
   = inl (InvalidQueueingStrategy (apiCQ_QueueingStrategy a)))
  ∧ (apiCQ_QueueingStrategy a = StrictFIFO →
     ∃ cq, ClusterQueue.newClusterQueue a = inr cq
           ∧ heapImpl_less (CQ_heap cq) = strictFIFO
           ∧ CQ_QueueingStrategy cq = StrictFIFO
           ∧ heapImpl_items (CQ_heap cq) = ∅
           ∧ heapImpl_heap (CQ_heap cq) = []).
Proof.
  unfold ClusterQueue.newClusterQueue. split; intros H.
  - by rewrite decide_False.
  - rewrite decide_True by done. eexists. split; [done|]. by simpl.
Qed.

Lemma newClusterQueue_spec_witness :
  ClusterQueue.newClusterQueue (mkApiClusterQueue "BestEffortFIFO")
  = inl (InvalidQueueingStrategy "BestEffortFIFO")
  ∧ ∃ cq, ClusterQueue.newClusterQueue (mkApiClusterQueue "StrictFIFO")
          = inr cq
          ∧ heapImpl_less (CQ_heap cq) = strictFIFO
          ∧ CQ_QueueingStrategy cq = StrictFIFO
          ∧ heapImpl_items (CQ_heap cq) = ∅
          ∧ heapImpl_heap (CQ_heap cq) = [].
Proof.
  split.
  - apply (newClusterQueue_spec (mkApiClusterQueue "BestEffortFIFO")).
    simpl. unfold StrictFIFO. discriminate.
  - apply (newClusterQueue_spec (mkApiClusterQueue "StrictFIFO")).
    reflexivity.
Defined.

Lemma Pop_nil (cq : ClusterQueue) :
  heapImpl.Len (CQ_heap cq) = 0 →
  ClusterQueue.Pop cq = Some (None, cq).
Proof.
  intros H. unfold ClusterQueue.Pop. by rewrite decide_True.
Qed.

(** C10: [Pop] on a queue with no entries returns, without a panic, the
    absent result and the queue as it was. *)
Theorem Pop_empty (cq : ClusterQueue) :
  heapImpl.Len (CQ_heap cq) = 0 →
  ClusterQueue.Pop cq = Some (None, cq).
Proof.
  intros H. unfold ClusterQueue.Pop.
  destruct (decide (heapImpl.Len (CQ_heap cq) = 0)); [reflexivity|lia].
Qed.

Lemma Pop_empty_witness : ClusterQueue.Pop new_cq = Some (None, new_cq).
Proof. apply (Pop_empty new_cq). reflexivity. Defined.

(** ** [Queue.AddOrUpdate] *)

Lemma AddOrUpdate_present (q : Queue) (w : QueuedWorkload) info :
  Queue_items q !! workload.Key w = Some info →
  Queue_items (Queue.AddOrUpdate q w) !! workload.Key w
  = Some (workload.mkInfo w (workload.TotalRequests info)
                          (workload.Info_ClusterQueue info)).
Proof.
  intros H. unfold Queue.AddOrUpdate. rewrite H. simpl.
  by rewrite lookup_insert_eq.
Qed.

(** C3 at a concrete update: a queue holds [job_old] (100m of CPU);
    after [AddOrUpdate] with [job_new] (same key, 200m of CPU) the stored
    info carries the new workload and still the total requests of the old
    one, which differ from those of the new one. *)
Theorem AddOrUpdate_stale_totalRequests :
  let q0 := Queue.AddOrUpdate (Queue.newQueue (mkApiQueue "cq")) job_old in
  let q1 := Queue.AddOrUpdate q0 job_new in
  ∃ info, Queue_items q1 !! workload.Key job_new = Some info
    ∧ workload.Obj info = job_new
    ∧ workload.TotalRequests info = workload.totalRequests (Spec job_old)
    ∧ workload.TotalRequests info ≠ workload.totalRequests (Spec job_new)
    ∧ workload.TotalRequests (workload.NewInfo job_new)
      = workload.totalRequests (Spec job_new).
Proof.
  intros q0 q1.
  assert (Queue_items q0 !! workload.Key job_new
          = Some (workload.NewInfo job_old)) as H0.
  { unfold q0, Queue.AddOrUpdate. simpl. rewrite lookup_empty. simpl.
    change (workload.Key job_new) with (workload.Key job_old).
    by rewrite lookup_insert_eq. }
  eexists. split; [apply (AddOrUpdate_present q0 job_new _ H0)|].
  simpl. split; [done|]. split; [done|]. split; [|done].
  intros E.
  apply (f_equal (λ l, (λ r, workload.get (workload.PSR_Requests r)
                                          ResourceCPU) <$> head l)) in E.
  vm_compute in E. discriminate.
Qed.

(** ** Positions, parents and exchanges *)

Lemma parent_spec (x : nat) :
  (x = 0 ∧ parent x = 0) ∨ x = 2 * parent x + 1 ∨ x = 2 * parent x + 2.
Proof.
  unfold parent.
  pose proof (Nat.div_mod_eq (x - 1) 2).
  pose proof (Nat.mod_upper_bound (x - 1) 2). lia.
Qed.

Lemma parent_child (c i : nat) :
  0 < c → (parent c = i ↔ c = 2 * i + 1 ∨ c = 2 * i + 2).
Proof. pose proof (parent_spec c). lia. Qed.

Lemma parent_lt (j : nat) : 0 < j → parent j < j.
Proof. pose proof (parent_spec j). lia. Qed.

Lemma transp_l i j : transp i j i = j.
Proof. unfold transp. by rewrite decide_True. Qed.

Lemma transp_r i j : transp i j j = i.
Proof. unfold transp. repeat case_decide; congruence. Qed.

Lemma transp_other i j k : k ≠ i → k ≠ j → transp i j k = k.
Proof. intros. unfold transp. by rewrite !decide_False. Qed.

Lemma transp_inj i j a b : transp i j a = transp i j b → a = b.
Proof. unfold transp. repeat case_decide; congruence. Qed.

Lemma lookup_exchange {A} (l : list A) (i j k : nat) (x y : A) :
  l !! i = Some x → l !! j = Some y →
  <[j := x]> (<[i := y]> l) !! k = l !! transp i j k.
Proof.
  intros Hi Hj.
  pose proof (lookup_lt_Some _ _ _ Hi). pose proof (lookup_lt_Some _ _ _ Hj).
  unfold transp. destruct (decide (k = j)) as [->|Hkj].
  - rewrite list_lookup_insert_eq by (rewrite length_insert; lia).
    case_decide; by subst.
  - rewrite list_lookup_insert_ne by done.
    destruct (decide (k = i)) as [->|Hki].
    + by rewrite list_lookup_insert_eq.
    + by rewrite list_lookup_insert_ne.
Qed.

(** ** The methods of [heapImpl] on an indexed heap *)

Lemma lookup_contents (h : heapImpl) (k : string) :
  contents h !! k = obj <$> heapImpl_items h !! k.
Proof. unfold contents. by rewrite lookup_fmap. Qed.

Lemma val_is_Some (h : heapImpl) (i : nat) :
  indexed h → i < heapImpl.Len h → is_Some (val h i).
Proof.
  intros Hh Hi. unfold val.
  destruct (lookup_lt_is_Some_2 (heapImpl_heap h) i Hi) as [k Hk].
  destruct (indexed_heap h Hh i k Hk) as (it & Hit & _).
  rewrite Hk. simpl. rewrite lookup_contents, Hit. by eexists.
Qed.

Lemma val_key (h : heapImpl) (i : nat) (x : workload.Info) :
  indexed h → val h i = Some x →
  heapImpl_heap h !! i = Some (workload.Key (workload.Obj x)).
Proof.
  intros Hh. unfold val.
  destruct (heapImpl_heap h !! i) as [k|] eqn:Hk; simpl; [|done].
  destruct (indexed_heap h Hh i k Hk) as (it & Hit & _ & Hkey).
  rewrite lookup_contents, Hit. simpl. intros [= <-]. by rewrite Hkey.
Qed.

Lemma Less_val (h : heapImpl) (i j : nat) :
  heapImpl.Less h i j =
  a ← val h i; b ← val h j; Some (heapImpl_less h a b).
Proof.
  unfold heapImpl.Less, val.
  destruct (heapImpl_heap h !! i) as [ki|]; simpl; [|done].
  destruct (heapImpl_heap h !! j) as [kj|]; simpl.
  - rewrite !lookup_contents.
    destruct (heapImpl_items h !! ki); simpl; [|done].
    by destruct (heapImpl_items h !! kj).
  - by destruct (contents h !! ki).
Qed.

Lemma Less_is_Some (h : heapImpl) (i j : nat) :
  indexed h → i < heapImpl.Len h → j < heapImpl.Len h →
  is_Some (heapImpl.Less h i j).
Proof.
  intros Hh Hi Hj. rewrite Less_val.
  destruct (val_is_Some h i Hh Hi) as [a ->].
  destruct (val_is_Some h j Hh Hj) as [b ->]. by eexists.
Qed.

Lemma Swap_spec (h : heapImpl) (i j : nat) :
  indexed h → i < heapImpl.Len h → j < heapImpl.Len h →
  ∃ h', heapImpl.Swap h i j = Some h'
        ∧ indexed h' ∧ same_objects h h'
        ∧ ∀ k, heapImpl_heap h' !! k = heapImpl_heap h !! transp i j k.
Proof.
  intros Hh Hi Hj. destruct h as [m l less]. simpl in *.
  unfold heapImpl.Len in *. simpl in *.
  destruct (lookup_lt_is_Some_2 l i Hi) as [ki Hki].
  destruct (lookup_lt_is_Some_2 l j Hj) as [kj Hkj].
  destruct (indexed_heap _ Hh i ki Hki) as (iti & Hiti & Hii & Hik).
  destruct (indexed_heap _ Hh j kj Hkj) as (itj & Hitj & Hji & Hjk).
  simpl in *.
  pose proof (lookup_exchange l i j) as Hex.
  specialize (λ k, Hex k ki kj Hki Hkj).
  assert (ki = kj ↔ i = j) as Hkeq.
  { split; [|intros ->; congruence].
    intros ->. by eapply (NoDup_lookup l); [apply Hh|..]. }
  unfold heapImpl.Swap. simpl. rewrite Hki, Hkj. simpl.
  rewrite (Hex i), transp_l, Hkj. simpl. rewrite Hitj. simpl.
  rewrite (Hex j), transp_r, Hki. simpl.
  set (items1 := <[kj := mkHeapItem (obj itj) i]> m).
  assert (∃ b, items1 !! ki = Some b ∧ obj b = obj iti) as (b & Hb & Hbo).
  { unfold items1. destruct (decide (kj = ki)) as [E|E].
    - rewrite E, lookup_insert_eq. eexists. split; [done|].
      simpl. rewrite E in Hitj. congruence.
    - rewrite lookup_insert_ne by done. by exists iti. }
  rewrite Hb. simpl. eexists. split; [done|].
  assert (∀ key, <[ki := mkHeapItem (obj b) j]> items1 !! key =
                 if decide (key = ki) then Some (mkHeapItem (obj iti) j)
                 else if decide (key = kj) then Some (mkHeapItem (obj itj) i)
                 else m !! key) as Hitems.
  { intros key. destruct (decide (key = ki)) as [->|E1].
    - by rewrite lookup_insert_eq, Hbo.
    - rewrite lookup_insert_ne by done. unfold items1.
      destruct (decide (key = kj)) as [->|E2].
      + by rewrite lookup_insert_eq.
      + by rewrite lookup_insert_ne. }
  split; [|split; [|done]].
  - split; simpl.
    + apply NoDup_alt. intros a c x Ha Hc. rewrite Hex in Ha, Hc.
      apply (transp_inj i j).
      by eapply (NoDup_lookup l); [apply Hh|..].
    + intros k key Hk. rewrite Hex in Hk. rewrite Hitems.
      unfold transp in Hk. destruct (decide (k = i)) as [->|Hne1].
      * assert (key = kj) as -> by congruence.
        destruct (decide (kj = ki)) as [E|E].
        -- eexists. split; [done|]. simpl. split; [symmetry; by apply Hkeq|].
           congruence.
        -- rewrite decide_True by done. eexists. split; [done|]. by simpl.
      * destruct (decide (k = j)) as [->|Hne2].
        -- assert (key = ki) as -> by congruence.
           rewrite decide_True by done. eexists. split; [done|]. by simpl.
        -- assert (key ≠ ki) as E1.
           { intros ->. apply Hne1.
             by eapply (NoDup_lookup l); [apply Hh|..]. }
           assert (key ≠ kj) as E2.
           { intros ->. apply Hne2.
             by eapply (NoDup_lookup l); [apply Hh|..]. }
           rewrite !decide_False by done.
           apply (indexed_heap _ Hh k key Hk).
    + intros key it. rewrite Hitems, Hex.
      destruct (decide (key = ki)) as [->|E1].
      * intros [= <-]. simpl. by rewrite transp_r.
      * destruct (decide (key = kj)) as [->|E2].
        -- intros [= <-]. simpl. by rewrite transp_l.
        -- intros Hit. pose proof (indexed_items _ Hh key it Hit) as Hl.
           simpl in Hl. rewrite transp_other; [done|..]; congruence.
  - split; simpl; [done| |by rewrite !length_insert].
    apply map_eq. intros key. rewrite !lookup_contents. simpl.
    rewrite Hitems.
    destruct (decide (key = ki)) as [->|E1]; [by rewrite Hiti|].
    destruct (decide (key = kj)) as [->|E2]; [by rewrite Hitj|done].
Qed.

Lemma same_objects_refl (h : heapImpl) : same_objects h h.
Proof. by split. Qed.

Lemma same_objects_trans (h1 h2 h3 : heapImpl) :
  same_objects h1 h2 → same_objects h2 h3 → same_objects h1 h3.
Proof. intros [] []. split; congruence. Qed.

Lemma same_objects_Len (h h' : heapImpl) :
  same_objects h h' → heapImpl.Len h' = heapImpl.Len h.
Proof. intros []. done. Qed.

Lemma val_moved (h h' : heapImpl) (k k' : nat) :
  same_objects h h' →
  heapImpl_heap h' !! k = heapImpl_heap h !! k' →
  val h' k = val h k'.
Proof. intros [_ Hc _] Hk. unfold val. by rewrite Hk, Hc. Qed.

Lemma Less_moved (h h' : heapImpl) (a b a' b' : nat) :
  same_objects h h' →
  heapImpl_heap h' !! a = heapImpl_heap h !! a' →
  heapImpl_heap h' !! b = heapImpl_heap h !! b' →
  heapImpl.Less h' a b = heapImpl.Less h a' b'.
Proof.
  intros Hs Ha Hb. rewrite !Less_val.
  rewrite (val_moved h h' a a'), (val_moved h h' b b') by done.
  by rewrite (same_less _ _ Hs).
Qed.

(** ** The comparator on positions *)

Section comparisons.
Context (h : heapImpl) (Hsw : strict_weak (heapImpl_less h)).

Lemma Less_asym a b :
  heapImpl.Less h a b = Some true → heapImpl.Less h b a = Some false.
Proof using Hsw.
  rewrite !Less_val.
  destruct (val h a) as [x|], (val h b) as [y|]; simpl; try done.
  intros [= H]. f_equal.
  destruct (heapImpl_less h y x) eqn:E; [|done].
  pose proof (less_trans _ Hsw _ _ _ H E) as Hxx.
  by rewrite (less_irrefl _ Hsw) in Hxx.
Qed.

Lemma Less_negtrans a b c :
  heapImpl.Less h a b = Some false → heapImpl.Less h b c = Some false →
  heapImpl.Less h a c = Some false.
Proof using Hsw.
  rewrite !Less_val.
  destruct (val h a) as [x|], (val h b) as [y|], (val h c) as [z|];
    simpl; try done.
  intros [= H1] [= H2]. f_equal. by eapply less_negtrans.
Qed.

(** From [¬ a < c] and [a < b]: [¬ b < c]. *)
Lemma Less_cut_l a b c :
  heapImpl.Less h a c = Some false → heapImpl.Less h a b = Some true →
  heapImpl.Less h b c = Some false.
Proof using Hsw.
  rewrite !Less_val.
  destruct (val h a) as [x|], (val h b) as [y|], (val h c) as [z|];
    simpl; try done.
  intros [= H1] [= H2]. f_equal.
  destruct (heapImpl_less h y z) eqn:E; [|done].
  by rewrite (less_trans _ Hsw _ _ _ H2 E) in H1.
Qed.

(** From [¬ a < c] and [b < c]: [¬ a < b]. *)
Lemma Less_cut_r a b c :
  heapImpl.Less h a c = Some false → heapImpl.Less h b c = Some true →
  heapImpl.Less h a b = Some false.
Proof using Hsw.
  rewrite !Less_val.
  destruct (val h a) as [x|], (val h b) as [y|], (val h c) as [z|];
    simpl; try done.
  intros [= H1] [= H2]. f_equal.
  destruct (heapImpl_less h x y) eqn:E; [|done].
  by rewrite (less_trans _ Hsw _ _ _ E H2) in H1.
Qed.
End comparisons.

(** ** Sifting up *)

Lemma up_loop_S (rounds : nat) (h : heapImpl) (j : nat) :
  heap.up_loop (S rounds) h j =
  if decide (parent j = j) then Some h else
  lt ← heapImpl.Less h j (parent j);
  if negb lt then Some h else
  h' ← heapImpl.Swap h (parent j) j;
  heap.up_loop rounds h' (parent j).
Proof. reflexivity. Qed.

Lemma up_loop_spec (rounds : nat) : ∀ (h : heapImpl) (j n : nat),
  strict_weak (heapImpl_less h) → indexed h →
  j < n → n ≤ heapImpl.Len h → j < rounds →
  (∀ k, 0 < k < n → k ≠ j → above_parent h k) →
  (∀ c, 0 < c < n → parent c = j → 0 < j →
        heapImpl.Less h c (parent j) = Some false) →
  ∃ h', heap.up_loop rounds h j = Some h'
        ∧ indexed h' ∧ same_objects h h'
        ∧ (∀ k, j < k → heapImpl_heap h' !! k = heapImpl_heap h !! k)
        ∧ heap_ordered_upto h' n.
Proof.
  induction rounds as [|rounds IH]; intros h j n Hsw Hh Hjn Hn Hr Ha Hb;
    [lia|].
  rewrite up_loop_S.
  pose proof (parent_spec j) as Hpj.
  destruct (decide (parent j = j)) as [E|E].
  { exists h. split; [done|]. split; [done|].
    split; [apply same_objects_refl|]. split; [done|].
    intros k Hk. apply Ha; lia. }
  assert (0 < j) as Hj0 by lia.
  destruct (Less_is_Some h j (parent j) Hh) as [lt Hlt]; [lia..|].
  rewrite Hlt. simpl. destruct lt; simpl.
  2:{ exists h. split; [done|]. split; [done|].
      split; [apply same_objects_refl|]. split; [done|].
      intros k Hk. destruct (decide (k = j)) as [->|]; [done|]. by apply Ha. }
  destruct (Swap_spec h (parent j) j Hh) as (h1 & -> & Hh1 & Hs1 & Hl1);
    [lia..|].
  simpl.
  assert (∀ a b, heapImpl.Less h1 a b
                 = heapImpl.Less h (transp (parent j) j a)
                                   (transp (parent j) j b)) as HL.
  { intros a b. by apply Less_moved. }
  destruct (IH h1 (parent j) n) as (h' & Hup & Hh' & Hs' & Hl' & Ho').
  - by rewrite (same_less _ _ Hs1).
  - done.
  - lia.
  - rewrite (same_objects_Len _ _ Hs1). lia.
  - lia.
  - intros k Hk Hkp. unfold above_parent. rewrite HL.
    pose proof (parent_spec k) as Hpk.
    destruct (decide (k = j)) as [->|Hkj].
    + rewrite transp_r, transp_l. by apply Less_asym.
    + rewrite (transp_other _ _ k) by done.
      destruct (decide (parent k = parent j)) as [Es|Es].
      * rewrite Es, transp_l.
        apply (Less_cut_r h Hsw k j (parent j)); [|done].
        rewrite <- Es. by apply Ha.
      * destruct (decide (parent k = j)) as [Ec|Ec].
        -- rewrite Ec, transp_r. by apply Hb.
        -- rewrite transp_other by done. by apply Ha.
  - intros c Hc Hcp Hp0. rewrite HL.
    pose proof (parent_spec (parent j)) as Hppj.
    pose proof (parent_spec c) as Hpc.
    rewrite (transp_other _ _ (parent (parent j))) by lia.
    destruct (decide (c = j)) as [->|Hcj].
    + rewrite transp_r. apply Ha; lia.
    + rewrite transp_other by lia.
      apply (Less_negtrans h Hsw c (parent j)).
      * rewrite <- Hcp. apply Ha; [lia|done].
      * apply Ha; lia.
  - exists h'. split; [done|]. split; [done|].
    split; [by eapply same_objects_trans|]. split; [|done].
    intros k Hk. rewrite Hl' by lia. rewrite Hl1.
    by rewrite transp_other by lia.
Qed.

(** ** Sifting down *)

Lemma down_loop_S (rounds : nat) (h : heapImpl) (i n : nat) :
  heap.down_loop (S rounds) h i n =
  if decide (n ≤ 2 * i + 1) then Some (h, i) else
  j ← (if decide (2 * i + 1 + 1 < n)
       then lt ← heapImpl.Less h (2 * i + 1 + 1) (2 * i + 1);
            Some (if lt : bool then 2 * i + 1 + 1 else 2 * i + 1)
       else Some (2 * i + 1));
  lt ← heapImpl.Less h j i;
  if negb lt then Some (h, i) else
  h' ← heapImpl.Swap h i j;
  heap.down_loop rounds h' j n.
Proof. reflexivity. Qed.

(** The child that [down] compares with its parent sorts after no other
    child. *)
Lemma down_child (h : heapImpl) (i n : nat) :
  strict_weak (heapImpl_less h) → indexed h →
  n ≤ heapImpl.Len h → 2 * i + 1 < n →
  ∃ j, (if decide (2 * i + 1 + 1 < n)
        then lt ← heapImpl.Less h (2 * i + 1 + 1) (2 * i + 1);
             Some (if lt : bool then 2 * i + 1 + 1 else 2 * i + 1)
        else Some (2 * i + 1)) = Some j
       ∧ parent j = i ∧ i < j < n
       ∧ ∀ s, 0 < s < n → parent s = i → s ≠ j →
              heapImpl.Less h s j = Some false.
Proof.
  intros Hsw Hh Hn Hc.
  destruct (decide (2 * i + 1 + 1 < n)) as [H2|H2].
  - destruct (Less_is_Some h (2 * i + 1 + 1) (2 * i + 1) Hh)
      as [lt Hlt]; [lia..|].
    rewrite Hlt. simpl. destruct lt.
    + exists (2 * i + 1 + 1). split; [done|].
      split; [apply parent_child; lia|]. split; [lia|].
      intros s Hs Hps Hne. apply parent_child in Hps; [|lia].
      assert (s = 2 * i + 1) as -> by lia. by apply Less_asym.
    + exists (2 * i + 1). split; [done|].
      split; [apply parent_child; lia|]. split; [lia|].
      intros s Hs Hps Hne. apply parent_child in Hps; [|lia].
      assert (s = 2 * i + 1 + 1) as -> by lia. done.
  - exists (2 * i + 1). split; [done|].
    split; [apply parent_child; lia|]. split; [lia|].
    intros s Hs Hps Hne. apply parent_child in Hps; lia.
Qed.

Lemma down_loop_spec (rounds : nat) : ∀ (h : heapImpl) (i n : nat),
  strict_weak (heapImpl_less h) → indexed h →
  n ≤ heapImpl.Len h → n - i < rounds → hole_at h n i →
  ∃ h' i', heap.down_loop rounds h i n = Some (h', i')
    ∧ indexed h' ∧ same_objects h h'
    ∧ i ≤ i' ∧ (i' = i → h' = h)
    ∧ (∀ k, k < i ∨ n ≤ k → heapImpl_heap h' !! k = heapImpl_heap h !! k)
    ∧ (∀ k, 0 < k < n → k ≠ i → above_parent h' k)
    ∧ (i < i' → 0 < i → above_parent h' i).
Proof.
  induction rounds as [|rounds IH]; intros h i n Hsw Hh Hn Hr [HA HB];
    [lia|].
  rewrite down_loop_S.
  destruct (decide (n ≤ 2 * i + 1)) as [Hleaf|Hleaf].
  { exists h, i. split; [done|]. split; [done|].
    split; [apply same_objects_refl|]. split; [done|]. split; [done|].
    split; [done|]. split; [|lia].
    intros k Hk Hki. apply HA; [done..|].
    intros Hp. apply parent_child in Hp; lia. }
  destruct (down_child h i n Hsw Hh Hn) as (j & -> & Hpj & Hj & Hmin);
    [lia|].
  simpl.
  destruct (Less_is_Some h j i Hh) as [lt Hlt]; [lia..|].
  rewrite Hlt. simpl. destruct lt; simpl.
  2:{ exists h, i. split; [done|]. split; [done|].
      split; [apply same_objects_refl|]. split; [done|]. split; [done|].
      split; [done|]. split; [|lia].
      intros k Hk Hki. unfold above_parent.
      destruct (decide (parent k = i)) as [Hp|Hp]; [|by apply HA].
      rewrite Hp. destruct (decide (k = j)) as [->|Hkj]; [done|].
      apply (Less_negtrans h Hsw k j i); [by apply Hmin|done]. }
  destruct (Swap_spec h i j Hh) as (h1 & -> & Hh1 & Hs1 & Hl1); [lia..|].
  simpl.
  assert (∀ a b, heapImpl.Less h1 a b
                 = heapImpl.Less h (transp i j a) (transp i j b)) as HL.
  { intros a b. by apply Less_moved. }
  destruct (IH h1 j n) as (h2 & i2 & Hdown & Hh2 & Hs2 & Hi2 & Hu2 & Hl2
                           & Ho2 & Hm2).
  - by rewrite (same_less _ _ Hs1).
  - done.
  - rewrite (same_objects_Len _ _ Hs1). lia.
  - lia.
  - split.
    + intros k Hk Hkj Hpk. unfold above_parent. rewrite HL.
      pose proof (parent_spec k) as Hk'.
      destruct (decide (k = i)) as [->|Hki].
      * rewrite transp_l, transp_other by lia. apply HB; [lia|done|lia].
      * rewrite (transp_other _ _ k) by done.
        destruct (decide (parent k = i)) as [Hp|Hp].
        -- rewrite Hp, transp_l. by apply Hmin.
        -- rewrite transp_other by done. by apply HA.
    + intros c Hc Hpc _. rewrite HL, Hpj, transp_l.
      pose proof (parent_spec c) as Hc'.
      rewrite transp_other by lia.
      rewrite <- Hpc. apply HA; [done|lia|lia].
  - exists h2, i2. split; [done|]. split; [done|].
    split; [by eapply same_objects_trans|]. split; [lia|].
    split; [lia|]. split; [|split].
    + intros k Hk. rewrite Hl2 by lia. rewrite Hl1.
      by rewrite transp_other by lia.
    + intros k Hk Hki. destruct (decide (k = j)) as [->|Hkj];
        [|by apply Ho2].
      destruct (decide (i2 = j)) as [E|E]; [|apply Hm2; lia].
      rewrite (Hu2 E). unfold above_parent.
      rewrite HL, Hpj, transp_r, transp_l. by apply Less_asym.
    + intros _ Hi0. apply Ho2; lia.
Qed.

Lemma up_spec (h : heapImpl) (j n : nat) :
  strict_weak (heapImpl_less h) → indexed h →
  j < n → n ≤ heapImpl.Len h →
  (∀ k, 0 < k < n → k ≠ j → above_parent h k) →
  (∀ c, 0 < c < n → parent c = j → 0 < j →
        heapImpl.Less h c (parent j) = Some false) →
  ∃ h', heap.up h j = Some h'
        ∧ indexed h' ∧ same_objects h h'
        ∧ (∀ k, j < k → heapImpl_heap h' !! k = heapImpl_heap h !! k)
        ∧ heap_ordered_upto h' n.
Proof. intros. apply up_loop_spec; auto with lia. Qed.

Lemma down_spec (h : heapImpl) (i n : nat) :
  strict_weak (heapImpl_less h) → indexed h →
  n ≤ heapImpl.Len h → hole_at h n i →
  ∃ h' moved, heap.down h i n = Some (h', moved)
    ∧ indexed h' ∧ same_objects h h'
    ∧ (moved = false → h' = h)
    ∧ (∀ k, k < i ∨ n ≤ k → heapImpl_heap h' !! k = heapImpl_heap h !! k)
    ∧ (∀ k, 0 < k < n → k ≠ i → above_parent h' k)
    ∧ (moved = true → 0 < i → above_parent h' i).
Proof.
  intros Hsw Hh Hn Hhole.
  destruct (down_loop_spec (S n) h i n Hsw Hh Hn) as
    (h' & i' & Hd & Hh' & Hs & Hi & Hu & Hl & Ho & Hm); [lia|done|].
  unfold heap.down. rewrite Hd. simpl.
  exists h', (bool_decide (i < i')). split; [done|]. split; [done|].
  split; [done|]. split; [|split; [done|split; [done|]]].
  - intros Hb. apply bool_decide_eq_false in Hb. apply Hu. lia.
  - intros Hb. apply bool_decide_eq_true in Hb. by apply Hm.
Qed.

(** [if !down(h, i, n) { up(h, i) }], as in [Fix] and [Remove]. *)
Lemma down_then_up (h : heapImpl) (i n : nat) :
  strict_weak (heapImpl_less h) → indexed h →
  i < n → n ≤ heapImpl.Len h → hole_at h n i →
  ∃ h1 moved h',
    heap.down h i n = Some (h1, moved)
    ∧ (if negb moved then heap.up h1 i else Some h1) = Some h'
    ∧ indexed h' ∧ same_objects h h'
    ∧ (∀ k, n ≤ k → heapImpl_heap h' !! k = heapImpl_heap h !! k)
    ∧ heap_ordered_upto h' n.
Proof.
  intros Hsw Hh Hi Hn Hhole.
  destruct (down_spec h i n Hsw Hh Hn Hhole) as
    (h1 & moved & Hd & Hh1 & Hs1 & Hu & Hl & Ho & Hm).
  exists h1, moved. destruct moved; simpl.
  - exists h1. split; [done|]. split; [done|]. split; [done|].
    split; [done|]. split; [intros k Hk; apply Hl; lia|].
    intros k Hk. destruct (decide (k = i)) as [->|Hki].
    + apply Hm; [done|lia].
    + by apply Ho.
  - rewrite (Hu eq_refl) in *.
    destruct (up_spec h i n Hsw Hh Hi Hn) as (h' & Hup & Hh' & Hs' & Hl' & Ho').
    + intros k Hk Hki. by apply Ho.
    + apply Hhole.
    + exists h'. split; [done|]. split; [done|]. split; [done|].
      split; [done|]. split; [|done].
      intros k Hk. apply Hl'. lia.
Qed.

(** ** [heapImpl.Push] and [heapImpl.Pop] *)

Lemma key_not_in_heap (h : heapImpl) (key : string) :
  indexed h → heapImpl_items h !! key = None → key ∉ heapImpl_heap h.
Proof.
  intros Hh Hnone Hin. apply list_elem_of_lookup in Hin as [i Hi].
  destruct (indexed_heap h Hh i key Hi) as (it & Hit & _). congruence.
Qed.

Lemma heapImpl_Push_indexed (h : heapImpl) (x : workload.Info) :
  indexed h →
  heapImpl_items h !! workload.Key (workload.Obj x) = None →
  indexed (heapImpl.Push h x).
Proof.
  intros Hh Hnone. pose proof (key_not_in_heap h _ Hh Hnone) as Hnin.
  split; simpl.
  - apply NoDup_app. split; [apply Hh|]. split; [|apply NoDup_singleton].
    intros k Hk Hk'. apply list_elem_of_singleton in Hk'. by subst.
  - intros i k Hi. apply lookup_app_Some in Hi as [Hi|[Hlen Hi]].
    + assert (k ≠ workload.Key (workload.Obj x)) as Hne.
      { intros ->. apply Hnin. apply list_elem_of_lookup. eauto. }
      rewrite lookup_insert_ne by done. by apply (indexed_heap h Hh).
    + apply list_lookup_singleton_Some in Hi as [Hi <-].
      rewrite lookup_insert_eq. eexists. split; [done|]. simpl.
      split; [lia|done].
  - intros k it Hit.
    destruct (decide (workload.Key (workload.Obj x) = k)) as [<-|Hne].
    + rewrite lookup_insert_eq in Hit. injection Hit as <-. simpl.
      rewrite lookup_app_r by done. by rewrite Nat.sub_diag.
    + rewrite lookup_insert_ne in Hit by done.
      apply lookup_app_l_Some. by apply (indexed_items h Hh).
Qed.

Lemma heapImpl_Push_contents (h : heapImpl) (x : workload.Info) :
  contents (heapImpl.Push h x)
  = <[workload.Key (workload.Obj x) := x]> (contents h).
Proof. unfold contents. simpl. by rewrite fmap_insert. Qed.

Lemma heapImpl_Push_val (h : heapImpl) (x : workload.Info) (k : nat) :
  indexed h →
  heapImpl_items h !! workload.Key (workload.Obj x) = None →
  k < heapImpl.Len h →
  val (heapImpl.Push h x) k = val h k.
Proof.
  intros Hh Hnone Hk. unfold val. rewrite heapImpl_Push_contents. simpl.
  rewrite lookup_app_l by done.
  destruct (heapImpl_heap h !! k) as [key|] eqn:Hkey; simpl; [|done].
  rewrite lookup_insert_ne; [done|].
  intros <-. eapply key_not_in_heap; [done..|].
  apply list_elem_of_lookup. eauto.
Qed.

Lemma heapImpl_Pop_spec (h : heapImpl) (n : nat) :
  indexed h → heapImpl.Len h = S n → heap_ordered_upto h n →
  ∃ x h', val h n = Some x
    ∧ heapImpl.Pop h = Some (x, h')
    ∧ indexed h' ∧ heap_ordered h'
    ∧ heapImpl_less h' = heapImpl_less h
    ∧ contents h' = delete (workload.Key (workload.Obj x)) (contents h)
    ∧ heapImpl.Len h' = n.
Proof.
  intros Hh Hlen Hord. unfold heapImpl.Len in Hlen.
  destruct (val_is_Some h n Hh) as [x Hx]; [unfold heapImpl.Len; lia|].
  pose proof (val_key h n x Hh Hx) as Hkey.
  set (key := workload.Key (workload.Obj x)) in *.
  destruct (indexed_heap h Hh n key Hkey) as (it & Hit & Hidx & _).
  assert (obj it = x) as Hobj.
  { unfold val in Hx. rewrite Hkey in Hx. simpl in Hx.
    rewrite lookup_contents, Hit in Hx. by injection Hx. }
  unfold heapImpl.Pop. rewrite decide_False by lia.
  rewrite Hlen. replace (S n - 1) with n by lia.
  rewrite Hkey. simpl. rewrite Hit. simpl. rewrite Hobj.
  eexists _, _. split; [done|]. split; [done|].
  assert (∀ i k, take n (heapImpl_heap h) !! i = Some k → k ≠ key) as Hne.
  { intros i k Hi ->. apply lookup_take_Some in Hi as [Hi Hlt].
    pose proof (NoDup_lookup _ _ _ _ (indexed_NoDup h Hh) Hi Hkey). lia. }
  assert (indexed (mkHeapImpl (delete key (heapImpl_items h))
                              (take n (heapImpl_heap h))
                              (heapImpl_less h))) as Hh'.
  { split; simpl.
    - apply NoDup_alt. intros i j k Hi Hj.
      apply lookup_take_Some in Hi as [Hi _].
      apply lookup_take_Some in Hj as [Hj _].
      by eapply NoDup_lookup; [apply Hh|..].
    - intros i k Hi. pose proof (Hne i k Hi) as Hk.
      apply lookup_take_Some in Hi as [Hi _].
      rewrite lookup_delete_ne by done. by apply (indexed_heap h Hh).
    - intros k it' Hit'. apply lookup_delete_Some in Hit' as [Hk Hit'].
      pose proof (indexed_items h Hh k it' Hit') as Hl.
      apply lookup_take_Some. split; [done|].
      pose proof (lookup_lt_Some _ _ _ Hl) as Hlt.
      destruct (decide (index it' = n)) as [E|E]; [|lia].
      rewrite E in Hl. congruence. }
  split; [done|].
  assert (∀ k, k < n →
            val (mkHeapImpl (delete key (heapImpl_items h))
                            (take n (heapImpl_heap h)) (heapImpl_less h)) k
            = val h k) as Hval.
  { intros k Hk. unfold val, contents. simpl.
    rewrite lookup_take_lt by done.
    destruct (heapImpl_heap h !! k) as [k'|] eqn:Hk'; simpl; [|done].
    rewrite fmap_delete, lookup_delete_ne; [done|].
    intros <-. apply (Hne k key); [|done].
    apply lookup_take_Some. by split. }
  assert (length (take n (heapImpl_heap h)) = n) as Hlen'.
  { rewrite length_take. lia. }
  split; [|split; [done|split; [|done]]].
  - unfold heap_ordered, heapImpl.Len. simpl. rewrite Hlen'.
    intros j Hj. unfold above_parent. rewrite Less_val. simpl.
    pose proof (parent_lt j).
    rewrite !Hval by lia. specialize (Hord j Hj).
    unfold above_parent in Hord. by rewrite Less_val in Hord.
  - unfold contents. simpl. by rewrite fmap_delete.
Qed.

(** ** The operations of [container/heap] *)

Lemma heap_Push_spec (h : heapImpl) (x : workload.Info) :
  strict_weak (heapImpl_less h) → indexed h → heap_ordered h →
  heapImpl_items h !! workload.Key (workload.Obj x) = None →
  ∃ h', heap.Push h x = Some h'
    ∧ indexed h' ∧ heap_ordered h'
    ∧ heapImpl_less h' = heapImpl_less h
    ∧ contents h' = <[workload.Key (workload.Obj x) := x]> (contents h)
    ∧ heapImpl.Len h' = S (heapImpl.Len h).
Proof.
  intros Hsw Hh Hord Hnone. unfold heap.Push.
  pose proof (heapImpl_Push_indexed h x Hh Hnone) as Hh1.
  set (h1 := heapImpl.Push h x) in *.
  assert (heapImpl.Len h1 = S (heapImpl.Len h)) as Hlen.
  { unfold heapImpl.Len, h1. simpl. rewrite length_app. simpl. lia. }
  destruct (up_spec h1 (heapImpl.Len h1 - 1) (heapImpl.Len h1))
    as (h' & Hup & Hh' & Hs & _ & Ho); [done|done|lia|lia| | |].
  - intros k Hk Hne. unfold above_parent. rewrite Less_val.
    pose proof (parent_lt k).
    unfold h1. rewrite !heapImpl_Push_val by (done || lia). simpl.
    rewrite <- Less_val. apply Hord. lia.
  - intros c Hc Hp. apply parent_child in Hp; lia.
  - exists h'. split; [done|]. split; [done|].
    split; [by rewrite <- (same_objects_Len _ _ Hs) in Ho|].
    split; [by rewrite (same_less _ _ Hs)|].
    split; [rewrite (same_contents _ _ Hs); apply heapImpl_Push_contents|].
    by rewrite (same_objects_Len _ _ Hs).
Qed.

(** Exchanging [i] with the last position [n] leaves a hole at [i] in the
    first [n] positions of an ordered heap. *)
Lemma hole_after_Swap (h h1 : heapImpl) (i n : nat) :
  strict_weak (heapImpl_less h) → heap_ordered h →
  heapImpl.Len h = S n → i < n → same_objects h h1 →
  (∀ k, heapImpl_heap h1 !! k = heapImpl_heap h !! transp i n k) →
  hole_at h1 n i.
Proof.
  intros Hsw Hord Hlen Hi Hs Hl.
  assert (∀ a b, heapImpl.Less h1 a b
                 = heapImpl.Less h (transp i n a) (transp i n b)) as HL.
  { intros a b. by apply Less_moved. }
  split.
  - intros k Hk Hki Hpk. unfold above_parent. rewrite HL.
    pose proof (parent_lt k). rewrite !transp_other by lia.
    apply Hord. lia.
  - intros c Hc Hpc Hi0. rewrite HL.
    pose proof (parent_lt c). pose proof (parent_lt i).
    rewrite !transp_other by lia.
    apply (Less_negtrans h Hsw c i).
    + rewrite <- Hpc. apply Hord. lia.
    + apply Hord. lia.
Qed.

Lemma heap_Pop_spec (h : heapImpl) :
  strict_weak (heapImpl_less h) → indexed h → heap_ordered h →
  0 < heapImpl.Len h →
  ∃ x h', heap.Pop h = Some (x, h')
    ∧ val h 0 = Some x
    ∧ indexed h' ∧ heap_ordered h'
    ∧ heapImpl_less h' = heapImpl_less h
    ∧ contents h' = delete (workload.Key (workload.Obj x)) (contents h)
    ∧ S (heapImpl.Len h') = heapImpl.Len h.
Proof.
  intros Hsw Hh Hord Hlen. unfold heap.Pop.
  rewrite decide_False by lia.
  destruct (heapImpl.Len h) as [|n] eqn:En; [lia|].
  replace (S n - 1) with n by lia.
  destruct (Swap_spec h 0 n Hh) as (h1 & -> & Hh1 & Hs1 & Hl1); [lia..|].
  simpl.
  assert (hole_at h1 n 0) as Hhole.
  { destruct (decide (n = 0)) as [->|Hn].
    - split; intros; lia.
    - apply (hole_after_Swap h); auto with lia. }
  assert (strict_weak (heapImpl_less h1)) as Hsw1
    by by rewrite (same_less _ _ Hs1).
  destruct (down_spec h1 0 n Hsw1 Hh1) as
    (h2 & moved & -> & Hh2 & Hs2 & _ & Hl2 & Ho2 & _);
    [rewrite (same_objects_Len _ _ Hs1); lia|done|].
  simpl.
  destruct (heapImpl_Pop_spec h2 n Hh2) as
    (x & h' & Hx & -> & Hh' & Ho' & Hless & Hc & Hlen').
  - rewrite (same_objects_Len _ _ Hs2), (same_objects_Len _ _ Hs1). done.
  - intros k Hk. apply Ho2; lia.
  - exists x, h'. split; [done|]. split.
    + rewrite <- Hx.
      rewrite (val_moved h1 h2 n n) by (done || (apply Hl2; lia)).
      rewrite (val_moved h h1 n 0); [done..|].
      by rewrite Hl1, transp_r.
    + split; [done|]. split; [done|].
      split; [by rewrite Hless, (same_less _ _ Hs2), (same_less _ _ Hs1)|].
      split; [|lia].
      by rewrite Hc, (same_contents _ _ Hs2), (same_contents _ _ Hs1).
Qed.

Lemma heap_Remove_spec (h : heapImpl) (i : nat) :
  strict_weak (heapImpl_less h) → indexed h → heap_ordered h →
  i < heapImpl.Len h →
  ∃ x h', heap.Remove h i = Some (x, h')
    ∧ val h i = Some x
    ∧ indexed h' ∧ heap_ordered h'
    ∧ heapImpl_less h' = heapImpl_less h
    ∧ contents h' = delete (workload.Key (workload.Obj x)) (contents h)
    ∧ S (heapImpl.Len h') = heapImpl.Len h.
Proof.
  intros Hsw Hh Hord Hlen. unfold heap.Remove.
  rewrite decide_False by lia.
  destruct (heapImpl.Len h) as [|n] eqn:En; [lia|].
  replace (S n - 1) with n by lia.
  destruct (decide (n ≠ i)) as [Hne|Heq].
  - destruct (Swap_spec h i n Hh) as (h1 & -> & Hh1 & Hs1 & Hl1); [lia..|].
    simpl.
    assert (hole_at h1 n i) as Hhole
      by (apply (hole_after_Swap h); auto with lia).
    assert (strict_weak (heapImpl_less h1)) as Hsw1
      by by rewrite (same_less _ _ Hs1).
    destruct (down_then_up h1 i n Hsw1 Hh1) as
      (h2 & moved & h3 & -> & Hup & Hh3 & Hs3 & Hl3 & Ho3);
      [lia|rewrite (same_objects_Len _ _ Hs1); lia|done|].
    simpl. rewrite Hup. simpl.
    destruct (heapImpl_Pop_spec h3 n Hh3) as
      (x & h' & Hx & -> & Hh' & Ho' & Hless & Hc & Hlen').
    + rewrite (same_objects_Len _ _ Hs3), (same_objects_Len _ _ Hs1). done.
    + done.
    + exists x, h'. split; [done|]. split.
      * rewrite <- Hx.
        rewrite (val_moved h1 h3 n n) by (done || (apply Hl3; lia)).
        rewrite (val_moved h h1 n i); [done..|].
        by rewrite Hl1, transp_r.
      * split; [done|]. split; [done|].
        split; [by rewrite Hless, (same_less _ _ Hs3), (same_less _ _ Hs1)|].
        split; [|lia].
        by rewrite Hc, (same_contents _ _ Hs3), (same_contents _ _ Hs1).
  - assert (i = n) as -> by (destruct (decide (n = i)); [done|tauto]).
    destruct (heapImpl_Pop_spec h n Hh En) as
      (x & h' & Hx & -> & Hh' & Ho' & Hless & Hc & Hlen').
    + intros k Hk. apply Hord. lia.
    + exists x, h'. split; [done|]. split; [done|]. split; [done|].
      split; [done|]. split; [done|]. split; [done|lia].
Qed.

Lemma heap_Fix_spec (h : heapImpl) (i : nat) :
  strict_weak (heapImpl_less h) → indexed h →
  i < heapImpl.Len h → hole_at h (heapImpl.Len h) i →
  ∃ h', heap.Fix h i = Some h'
    ∧ indexed h' ∧ same_objects h h' ∧ heap_ordered h'.
Proof.
  intros Hsw Hh Hi Hhole. unfold heap.Fix.
  destruct (down_then_up h i (heapImpl.Len h) Hsw Hh) as
    (h1 & moved & h' & -> & Hup & Hh' & Hs & _ & Ho); [lia|lia|done|].
  simpl. exists h'. split; [done|]. split; [done|]. split; [done|].
  unfold heap_ordered. by rewrite (same_objects_Len _ _ Hs).
Qed.

(** ** The operations of [ClusterQueue] on a reachable queue *)

Lemma cq_inv_sw (cq : ClusterQueue) :
  cq_inv cq → strict_weak (heapImpl_less (CQ_heap cq)).
Proof. intros [-> _ _]. apply strictFIFO_strict_weak. Qed.

Lemma cq_inv_new (a : apiClusterQueue) (cq : ClusterQueue) :
  ClusterQueue.newClusterQueue a = inr cq → cq_inv cq.
Proof.
  unfold ClusterQueue.newClusterQueue. case_decide; [|done].
  intros [= <-]. split; simpl; [done| |].
  - split; simpl.
    + apply NoDup_nil_2.
    + intros i k Hi. by rewrite lookup_nil in Hi.
    + intros k it Hk. by rewrite lookup_empty in Hk.
  - intros j Hj. unfold heapImpl.Len in Hj. simpl in Hj. lia.
Qed.

Lemma PushIfNotPresent_present (cq : ClusterQueue) (info : workload.Info) :
  is_Some (heapImpl_items (CQ_heap cq)
           !! workload.Key (workload.Obj info)) →
  ClusterQueue.PushIfNotPresent cq info = Some (false, cq).
Proof. intros [it Hit]. unfold ClusterQueue.PushIfNotPresent. by rewrite Hit. Qed.

Lemma PushIfNotPresent_absent (cq : ClusterQueue) (info : workload.Info) :
  cq_inv cq →
  heapImpl_items (CQ_heap cq) !! workload.Key (workload.Obj info) = None →
  ∃ cq', ClusterQueue.PushIfNotPresent cq info = Some (true, cq')
    ∧ cq_inv cq'
    ∧ contents (CQ_heap cq')
      = <[workload.Key (workload.Obj info) := info]> (contents (CQ_heap cq))
    ∧ heapImpl.Len (CQ_heap cq') = S (heapImpl.Len (CQ_heap cq)).
Proof.
  intros Hinv Hnone. unfold ClusterQueue.PushIfNotPresent. rewrite Hnone.
  destruct (heap_Push_spec (CQ_heap cq) info) as
    (h' & -> & Hh' & Ho' & Hless & Hc & Hlen);
    [by apply cq_inv_sw|apply Hinv..|done|].
  simpl. eexists. split; [done|]. split; [|done].
  split; simpl; [|done..]. rewrite Hless. apply Hinv.
Qed.

(** Replacing the object stored under a key of an ordered heap leaves a
    hole at the position of the key. *)
Lemma hole_after_update (h : heapImpl) (key : string) (item : heapItem)
    (info : workload.Info) :
  strict_weak (heapImpl_less h) → indexed h → heap_ordered h →
  heapImpl_items h !! key = Some item →
  workload.Key (workload.Obj info) = key →
  let h1 := mkHeapImpl (<[key := mkHeapItem info (index item)]>
                          (heapImpl_items h))
                       (heapImpl_heap h) (heapImpl_less h) in
  indexed h1 ∧ index item < heapImpl.Len h
  ∧ hole_at h1 (heapImpl.Len h1) (index item)
  ∧ contents h1 = <[key := info]> (contents h).
Proof.
  intros Hsw Hh Hord Hitem Hkey h1.
  pose proof (indexed_items h Hh key item Hitem) as Hpos.
  pose proof (lookup_lt_Some _ _ _ Hpos) as Hlt.
  assert (contents h1 = <[key := info]> (contents h)) as Hc.
  { unfold contents, h1. simpl. by rewrite fmap_insert. }
  assert (∀ k, k ≠ index item → val h1 k = val h k) as Hval.
  { intros k Hk. unfold val. rewrite Hc. simpl.
    destruct (heapImpl_heap h !! k) as [k'|] eqn:Hk'; simpl; [|done].
    rewrite lookup_insert_ne; [done|]. intros <-. apply Hk.
    by eapply NoDup_lookup; [apply Hh|..]. }
  assert (∀ a b, a ≠ index item → b ≠ index item →
                 heapImpl.Less h1 a b = heapImpl.Less h a b) as HL.
  { intros a b Ha Hb. rewrite !Less_val, !Hval by done. done. }
  split; [|split; [done|split; [|done]]].
  - split; simpl.
    + apply Hh.
    + intros i k Hi. destruct (decide (key = k)) as [<-|Hne].
      * rewrite lookup_insert_eq. eexists. split; [done|]. simpl.
        split; [|done]. by eapply NoDup_lookup; [apply Hh|..].
      * rewrite lookup_insert_ne by done. by apply (indexed_heap h Hh).
    + intros k it. destruct (decide (key = k)) as [<-|Hne].
      * rewrite lookup_insert_eq. by intros [= <-].
      * rewrite lookup_insert_ne by done. apply (indexed_items h Hh).
  - change (heapImpl.Len h1) with (heapImpl.Len h). split.
    + intros k Hk Hki Hpk. unfold above_parent. rewrite HL by done.
      by apply Hord.
    + intros c Hc' Hpc Hi0.
      pose proof (parent_lt c). pose proof (parent_lt (index item)).
      rewrite HL by lia.
      apply (Less_negtrans h Hsw c (index item)).
      * rewrite <- Hpc. by apply Hord.
      * apply Hord. lia.
Qed.

Lemma PushOrUpdate_spec (cq : ClusterQueue) (w : QueuedWorkload) :
  cq_inv cq →
  ∃ cq', ClusterQueue.PushOrUpdate cq w = Some cq'
    ∧ cq_inv cq'
    ∧ contents (CQ_heap cq')
      = <[workload.Key w := workload.NewInfo w]> (contents (CQ_heap cq))
    ∧ heapImpl.Len (CQ_heap cq')
      = match heapImpl_items (CQ_heap cq) !! workload.Key w with
        | Some _ => heapImpl.Len (CQ_heap cq)
        | None => S (heapImpl.Len (CQ_heap cq))
        end.
Proof.
  intros Hinv. pose proof (cq_inv_sw cq Hinv) as Hsw.
  destruct Hinv as [Hless Hh Hord].
  unfold ClusterQueue.PushOrUpdate.
  destruct (heapImpl_items (CQ_heap cq) !! workload.Key w)
    as [item|] eqn:Hitem.
  - destruct (hole_after_update (CQ_heap cq) (workload.Key w) item
                (workload.NewInfo w) Hsw Hh Hord Hitem eq_refl)
      as (Hh1 & Hlt & Hhole & Hc).
    pose proof (λ sw, heap_Fix_spec _ (index item) sw Hh1 Hlt Hhole) as HF.
    destruct (HF Hsw) as (h' & -> & Hh' & Hs & Ho').
    simpl. eexists. split; [done|]. simpl.
    split; [|split; [by rewrite (same_contents _ _ Hs)|]].
    + split; simpl; [|done..]. by rewrite (same_less _ _ Hs).
    + by rewrite (same_objects_Len _ _ Hs).
  - destruct (heap_Push_spec (CQ_heap cq) (workload.NewInfo w)) as
      (h' & -> & Hh' & Ho' & Hless' & Hc & Hlen); [done..|].
    simpl. eexists. split; [done|]. split; [|done].
    split; simpl; [|done..]. by rewrite Hless'.
Qed.

Lemma Delete_spec (cq : ClusterQueue) (w : QueuedWorkload) :
  cq_inv cq →
  ∃ cq', ClusterQueue.Delete cq w = Some cq'
    ∧ cq_inv cq'
    ∧ contents (CQ_heap cq') = delete (workload.Key w) (contents (CQ_heap cq)).
Proof.
  intros Hinv. pose proof (cq_inv_sw cq Hinv) as Hsw.
  destruct Hinv as [Hless Hh Hord].
  unfold ClusterQueue.Delete.
  destruct (heapImpl_items (CQ_heap cq) !! workload.Key w)
    as [item|] eqn:Hitem.
  - pose proof (indexed_items _ Hh _ _ Hitem) as Hpos.
    destruct (heap_Remove_spec (CQ_heap cq) (index item) Hsw Hh Hord)
      as (x & h' & -> & Hx & Hh' & Ho' & Hless' & Hc & Hlen).
    { by eapply lookup_lt_Some. }
    simpl. eexists. split; [done|]. simpl.
    pose proof (val_key _ _ _ Hh Hx) as Hkey.
    assert (workload.Key (workload.Obj x) = workload.Key w) as E
      by congruence.
    split; [|by rewrite Hc, E].
    split; simpl; [|done..]. by rewrite Hless'.
  - exists cq. split; [done|]. split; [done|].
    rewrite delete_id; [done|]. by rewrite lookup_contents, Hitem.
Qed.

Lemma Pop_spec (cq : ClusterQueue) :
  cq_inv cq → 0 < heapImpl.Len (CQ_heap cq) →
  ∃ x cq', ClusterQueue.Pop cq = Some (Some x, cq')
    ∧ val (CQ_heap cq) 0 = Some x
    ∧ cq_inv cq'
    ∧ contents (CQ_heap cq')
      = delete (workload.Key (workload.Obj x)) (contents (CQ_heap cq))
    ∧ S (heapImpl.Len (CQ_heap cq')) = heapImpl.Len (CQ_heap cq).
Proof.
  intros Hinv Hlen. pose proof (cq_inv_sw cq Hinv) as Hsw.
  destruct Hinv as [Hless Hh Hord].
  unfold ClusterQueue.Pop. rewrite decide_False by lia.
  destruct (heap_Pop_spec (CQ_heap cq) Hsw Hh Hord Hlen)
    as (x & h' & -> & Hx & Hh' & Ho' & Hless' & Hc & Hlen').
  simpl. eexists _, _. split; [done|]. split; [done|]. simpl.
  split; [|done]. split; simpl; [|done..]. by rewrite Hless'.
Qed.

Lemma AddFromQueue_range_inv (ws : list workload.Info) : ∀ added cq,
  cq_inv cq →
  ∃ b cq', ClusterQueue.AddFromQueue_range ws added cq = Some (b, cq')
           ∧ cq_inv cq'.
Proof.
  induction ws as [|w ws IH]; intros added cq Hinv; simpl.
  - by exists added, cq.
  - destruct (heapImpl_items (CQ_heap cq) !! workload.Key (workload.Obj w))
      as [it|] eqn:Hw.
    + rewrite PushIfNotPresent_present by eauto. simpl. by apply IH.
    + destruct (PushIfNotPresent_absent cq w Hinv Hw)
        as (cq1 & -> & Hinv1 & _). simpl. by apply IH.
Qed.

Lemma DeleteFromQueue_range_inv (ws : list workload.Info) : ∀ cq,
  cq_inv cq →
  ∃ cq', ClusterQueue.DeleteFromQueue_range ws cq = Some cq' ∧ cq_inv cq'.
Proof.
  induction ws as [|w ws IH]; intros cq Hinv; simpl.
  - by exists cq.
  - destruct (Delete_spec cq (workload.Obj w) Hinv) as (cq1 & -> & Hinv1 & _).
    simpl. by apply IH.
Qed.

Lemma run_op_inv (cq : ClusterQueue) (o : op) :
  cq_inv cq → ∃ cq', run_op cq o = Some cq' ∧ cq_inv cq'.
Proof.
  intros Hinv. destruct o as [info|w|w| |ws|ws]; simpl.
  - destruct (heapImpl_items (CQ_heap cq)
              !! workload.Key (workload.Obj info)) as [it|] eqn:Hw.
    + rewrite PushIfNotPresent_present by eauto. by exists cq.
    + destruct (PushIfNotPresent_absent cq info Hinv Hw)
        as (cq1 & -> & Hinv1 & _). by exists cq1.
  - destruct (PushOrUpdate_spec cq w Hinv) as (cq1 & -> & Hinv1 & _).
    by exists cq1.
  - destruct (Delete_spec cq w Hinv) as (cq1 & -> & Hinv1 & _).
    by exists cq1.
  - destruct (decide (heapImpl.Len (CQ_heap cq) = 0)) as [E|E].
    + rewrite Pop_nil by done. by exists cq.
    + destruct (Pop_spec cq Hinv) as (x & cq1 & -> & _ & Hinv1 & _); [lia|].
      by exists cq1.
  - destruct (AddFromQueue_range_inv ws false cq Hinv)
      as (b & cq1 & -> & Hinv1). by exists cq1.
  - apply DeleteFromQueue_range_inv, Hinv.
Qed.

Lemma run_ops_inv (os : list op) : ∀ cq,
  cq_inv cq → ∃ cq', run_ops cq os = Some cq' ∧ cq_inv cq'.
Proof.
  induction os as [|o os IH]; intros cq Hinv; simpl.
  - by exists cq.
  - destruct (run_op_inv cq o Hinv) as (cq1 & -> & Hinv1). simpl.
    by apply IH.
Qed.

Lemma reachable_inv (cq : ClusterQueue) : reachable cq → cq_inv cq.
Proof.
  intros (a & cq0 & os & Hnew & Hrun).
  destruct (run_ops_inv os cq0 (cq_inv_new a cq0 Hnew)) as (cq' & Hrun' & Hinv).
  congruence.
Qed.

Lemma reachable_step (cq cq' : ClusterQueue) (o : op) :
  reachable cq → run_op cq o = Some cq' → reachable cq'.
Proof.
  intros (a & cq0 & os & Hnew & Hrun) Hstep.
  exists a, cq0, (os ++ [o]). split; [done|].
  clear Hnew. revert cq0 Hrun.
  induction os as [|o' os IH]; intros cq0 Hrun; simpl in *.
  - injection Hrun as ->. by rewrite Hstep.
  - destruct (run_op cq0 o') as [cq1|]; simpl in *; [|done]. by apply IH.
Qed.

(** ** The heap ordering is an invariant *)

(** C7: from a newly built cluster queue, every sequence of
    [PushIfNotPresent], [PushOrUpdate], [Delete] and [Pop] (and of the two
    bulk transfers built from them) runs without a panic and ends in a
    queue whose backing array is heap-ordered under its comparator: at
    every position but the root, the comparator does not put the object
    before the object at the parent position. *)
Theorem heap_invariant (a : apiClusterQueue) (cq0 : ClusterQueue)
    (os : list op) :
  ClusterQueue.newClusterQueue a = inr cq0 →
  ∃ cq, run_ops cq0 os = Some cq
    ∧ ∀ j, 0 < j < heapImpl.Len (CQ_heap cq) →
        heapImpl.Less (CQ_heap cq) j (parent j) = Some false.
Proof.
  intros Hnew.
  destruct (run_ops_inv os cq0 (cq_inv_new a cq0 Hnew)) as (cq & Hrun & Hinv).
  exists cq. split; [done|]. apply Hinv.
Qed.

Lemma heap_invariant_witness :
  ∃ cq, run_ops new_cq (example_ops ++ [OpDelete job_b; OpPop]) = Some cq
    ∧ ∀ j, 0 < j < heapImpl.Len (CQ_heap cq) →
        heapImpl.Less (CQ_heap cq) j (parent j) = Some false.
Proof.
  apply (heap_invariant (mkApiClusterQueue StrictFIFO) new_cq
           (example_ops ++ [OpDelete job_b; OpPop])).
  reflexivity.
Defined.

(** ** The root is a minimum *)

Lemma val_lt (h : heapImpl) (k : nat) (x : workload.Info) :
  val h k = Some x → k < heapImpl.Len h.
Proof.
  unfold val. destruct (heapImpl_heap h !! k) eqn:E; [|done].
  intros _. by eapply lookup_lt_Some.
Qed.

Lemma val_contents (h : heapImpl) (k : nat) (x : workload.Info) :
  indexed h → val h k = Some x →
  contents h !! workload.Key (workload.Obj x) = Some x.
Proof.
  intros Hh Hx. pose proof (val_key h k x Hh Hx) as Hk.
  unfold val in Hx. by rewrite Hk in Hx.
Qed.

Lemma contents_val (h : heapImpl) (key : string) (x : workload.Info) :
  indexed h → contents h !! key = Some x →
  ∃ k, val h k = Some x ∧ workload.Key (workload.Obj x) = key.
Proof.
  intros Hh Hx. rewrite lookup_contents in Hx.
  destruct (heapImpl_items h !! key) as [it|] eqn:Hit; [|done].
  injection Hx as <-.
  pose proof (indexed_items h Hh key it Hit) as Hpos.
  destruct (indexed_heap h Hh _ _ Hpos) as (it' & Hit' & _ & Hkey).
  assert (it' = it) as -> by congruence.
  exists (index it). split; [|done].
  unfold val. rewrite Hpos. simpl. by rewrite lookup_contents, Hit.
Qed.

Lemma root_min (h : heapImpl) (r : workload.Info) :
  strict_weak (heapImpl_less h) → indexed h → heap_ordered h →
  val h 0 = Some r →
  ∀ k x, val h k = Some x → heapImpl_less h x r = false.
Proof.
  intros Hsw Hh Hord Hr k.
  induction (lt_wf k) as [k _ IH]. intros x Hx.
  destruct (decide (k = 0)) as [->|Hk].
  - assert (x = r) as -> by congruence. apply Hsw.
  - pose proof (val_lt h k x Hx) as Hlt. pose proof (parent_lt k) as Hp.
    destruct (val_is_Some h (parent k) Hh) as [p Hpv]; [lia|].
    pose proof (Hord k) as Hk'. unfold above_parent in Hk'.
    rewrite Less_val, Hx, Hpv in Hk'. simpl in Hk'.
    apply (less_negtrans _ Hsw x p r).
    + assert (Some (heapImpl_less h x p) = Some false) as E
        by (apply Hk'; lia).
      by injection E.
    + apply (IH (parent k)); [lia|done].
Qed.

(** [Pop] returns the entry that sorts before every other one. *)
Lemma Pop_min (cq : ClusterQueue) (m : workload.Info) :
  cq_inv cq →
  contents (CQ_heap cq) !! workload.Key (workload.Obj m) = Some m →
  (∀ k y, contents (CQ_heap cq) !! k = Some y →
          k ≠ workload.Key (workload.Obj m) → strictFIFO m y = true) →
  ∃ cq', ClusterQueue.Pop cq = Some (Some m, cq')
    ∧ cq_inv cq'
    ∧ contents (CQ_heap cq')
      = delete (workload.Key (workload.Obj m)) (contents (CQ_heap cq)).
Proof.
  intros Hinv Hm Hmin. pose proof (cq_inv_sw cq Hinv) as Hsw.
  destruct (contents_val _ _ _ (inv_indexed _ Hinv) Hm) as (km & Hkm & _).
  destruct (Pop_spec cq Hinv) as (x & cq' & Hpop & Hx & Hinv' & Hc & _).
  { pose proof (val_lt _ _ _ Hkm). lia. }
  pose proof (val_contents _ _ _ (inv_indexed _ Hinv) Hx) as Hxc.
  pose proof (root_min _ x Hsw (inv_indexed _ Hinv) (inv_ordered _ Hinv)
                Hx km m Hkm) as Hle.
  rewrite (inv_less _ Hinv) in Hle.
  destruct (decide (workload.Key (workload.Obj x)
                    = workload.Key (workload.Obj m))) as [E|E].
  - assert (x = m) as -> by (rewrite E in Hxc; congruence).
    by exists cq'.
  - rewrite (Hmin _ x Hxc E) in Hle. done.
Qed.

(** ** Pop order *)

Lemma contents_empty_Len (h : heapImpl) :
  indexed h → contents h = ∅ → heapImpl.Len h = 0.
Proof.
  intros Hh Hc. destruct (heapImpl.Len h) as [|n] eqn:E; [done|].
  destruct (val_is_Some h 0 Hh) as [x Hx]; [lia|].
  apply (val_contents h 0 x Hh) in Hx. by rewrite Hc, lookup_empty in Hx.
Qed.

(** Popping a queue whose entries are the members of a list sorted by
    [strictFIFO] returns the list, in order. *)
Lemma pops_sorted (l : list workload.Info) : ∀ cq,
  cq_inv cq →
  (∀ k y, contents (CQ_heap cq) !! k = Some y
          ↔ y ∈ l ∧ k = workload.Key (workload.Obj y)) →
  NoDup ((λ x, workload.Key (workload.Obj x)) <$> l) →
  StronglySorted before l →
  ∃ cq', pops (length l) cq = Some (Some <$> l, cq')
    ∧ cq_inv cq' ∧ contents (CQ_heap cq') = ∅.
Proof.
  induction l as [|m l IH]; intros cq Hinv Hc Hnd Hsorted; simpl.
  - exists cq. split; [done|]. split; [done|].
    apply map_eq. intros k. rewrite lookup_empty.
    destruct (contents (CQ_heap cq) !! k) as [y|] eqn:E; [|done].
    apply Hc in E as [E _]. by apply elem_of_nil in E.
  - apply NoDup_cons in Hnd as [Hm Hnd].
    apply StronglySorted_inv in Hsorted as [Hsorted Hall].
    destruct (Pop_min cq m Hinv) as (cq1 & -> & Hinv1 & Hc1).
    { apply Hc. split; [apply list_elem_of_here|done]. }
    { intros k y Hy Hk. apply Hc in Hy as [Hy ->].
      apply elem_of_cons in Hy as [->|Hy]; [done|].
      rewrite List.Forall_forall in Hall. apply Hall.
      by apply list_elem_of_In. }
    simpl. destruct (IH cq1 Hinv1) as (cq' & -> & Hinv' & Hc'); [|done..|].
    + intros k y. rewrite Hc1, lookup_delete_Some, Hc. split.
      * intros [Hk [Hy ->]]. split; [|done].
        apply elem_of_cons in Hy as [->|Hy]; done.
      * intros [Hy ->]. split; [|split; [by apply list_elem_of_further|done]].
        intros E. apply Hm. rewrite E.
        by apply (list_elem_of_fmap_2 (λ x, workload.Key (workload.Obj x))).
    + simpl. by exists cq'.
Qed.

Lemma pops_add (n m : nat) : ∀ cq,
  pops (n + m) cq =
  '(xs, cq1) ← pops n cq; '(ys, cq2) ← pops m cq1; Some (xs ++ ys, cq2).
Proof.
  induction n as [|n IH]; intros cq; simpl.
  - destruct (pops m cq) as [[ys cq2]|]; done.
  - destruct (ClusterQueue.Pop cq) as [[x cq1]|]; simpl; [|done].
    rewrite IH. destruct (pops n cq1) as [[xs cq2]|]; simpl; [|done].
    destruct (pops m cq2) as [[ys cq3]|]; done.
Qed.

(** C5: a strict-FIFO cluster queue holds exactly four workloads, [a]
    and [b] of priority 5 with [a] created before [b], [c] of priority 3
    and [d] of priority 9. Five calls of [Pop] return [d], then [a], then
    [b], then [c], then nothing. *)
Theorem pop_order (cq : ClusterQueue) (a b c d : workload.Info) :
  reachable cq →
  contents (CQ_heap cq)
  = <[workload.Key (workload.Obj a) := a]>
      (<[workload.Key (workload.Obj b) := b]>
         (<[workload.Key (workload.Obj c) := c]>
            {[workload.Key (workload.Obj d) := d]})) →
  NoDup [workload.Key (workload.Obj a); workload.Key (workload.Obj b);
         workload.Key (workload.Obj c); workload.Key (workload.Obj d)] →
  utilpriority.Priority (workload.Obj a) = 5%Z →
  utilpriority.Priority (workload.Obj b) = 5%Z →
  utilpriority.Priority (workload.Obj c) = 3%Z →
  utilpriority.Priority (workload.Obj d) = 9%Z →
  (CreationTimestamp (workload.Obj a)
   < CreationTimestamp (workload.Obj b))%Z →
  ∃ cq', pops 5 cq = Some ([Some d; Some a; Some b; Some c; None], cq').
Proof.
  intros Hreach Hc Hnd Ha Hb Hc3 Hd Hab.
  pose proof (reachable_inv cq Hreach) as Hinv.
  apply NoDup_cons in Hnd as [Hna Hnd]. apply NoDup_cons in Hnd as [Hnb Hnd].
  apply NoDup_cons in Hnd as [Hnc _].
  rewrite !not_elem_of_cons in Hna. rewrite !not_elem_of_cons in Hnb.
  rewrite !not_elem_of_cons in Hnc.
  destruct Hna as (Hab' & Hac & Had & _). destruct Hnb as (Hbc & Hbd & _).
  destruct Hnc as (Hcd & _).
  destruct (pops_sorted [d; a; b; c] cq Hinv) as (cq' & Hpops & Hinv' & Hc').
  - intros k y. rewrite Hc, !elem_of_cons, elem_of_nil.
    rewrite !lookup_insert_Some, lookup_singleton_Some.
    split.
    + intros [[<- <-]|[? [[<- <-]|[? [[<- <-]|[? [<- <-]]]]]]];
        (split; [tauto|done]).
    + intros [[->|[->|[->|[->|[]]]]] ->].
      * right. split; [congruence|]. right. split; [congruence|].
        right. split; [congruence|]. done.
      * by left.
      * right. split; [congruence|]. by left.
      * right. split; [congruence|]. right. split; [congruence|]. by left.
  - simpl. repeat (apply NoDup_cons; split);
      rewrite ?not_elem_of_cons, ?elem_of_nil; try apply NoDup_nil_2;
      naive_solver.
  - repeat constructor; apply strictFIFO_true; lia.
  - exists cq'. change 5 with (length [d; a; b; c] + 1).
    rewrite pops_add, Hpops. simpl.
    rewrite Pop_nil; [done|].
    by apply contents_empty_Len; [apply Hinv'|].
Qed.

Lemma reachable_example_cq : reachable example_cq.
Proof.
  exists (mkApiClusterQueue StrictFIFO), new_cq, example_ops.
  split; [reflexivity|]. vm_compute. reflexivity.
Defined.

Lemma pop_order_witness :
  ∃ cq', pops 5 example_cq
         = Some ([Some (workload.NewInfo job_d); Some (workload.NewInfo job_a);
                  Some (workload.NewInfo job_b); Some (workload.NewInfo job_c);
                  None], cq').
Proof.
  apply (pop_order example_cq (workload.NewInfo job_a)
           (workload.NewInfo job_b) (workload.NewInfo job_c)
           (workload.NewInfo job_d)).
  - exact reachable_example_cq.
  - vm_compute. reflexivity.
  - apply (bool_decide_unpack _). vm_compute. exact I.
  - reflexivity.
  - reflexivity.
  - reflexivity.
  - reflexivity.
  - simpl. lia.
Defined.

(** ** Membership *)

Lemma cq_inv_unique_keys (cq : ClusterQueue) : cq_inv cq → unique_keys cq.
Proof.
  intros Hinv i j a b Ha Hb E.
  pose proof (val_key _ _ _ (inv_indexed _ Hinv) Ha) as Hi.
  pose proof (val_key _ _ _ (inv_indexed _ Hinv) Hb) as Hj.
  rewrite E in Hi.
  by eapply NoDup_lookup; [apply (inv_indexed _ Hinv)|..].
Qed.

(** C6: in every cluster queue the package can build, and after every
    further operation, no two entries carry the same workload key;
    [PushIfNotPresent] on a key that is present returns false and the
    queue as it was; [PushOrUpdate] on a key that is present leaves one
    entry for the key, holding the freshly computed info, and the same
    number of entries. *)
Theorem membership_unique (cq : ClusterQueue) :
  reachable cq →
  unique_keys cq
  ∧ (∀ o cq', run_op cq o = Some cq' → unique_keys cq')
  ∧ (∀ info,
       is_Some (heapImpl_items (CQ_heap cq)
                !! workload.Key (workload.Obj info)) →
       ClusterQueue.PushIfNotPresent cq info = Some (false, cq))
  ∧ (∀ w,
       is_Some (heapImpl_items (CQ_heap cq) !! workload.Key w) →
       ∃ cq' i,
         ClusterQueue.PushOrUpdate cq w = Some cq'
         ∧ val (CQ_heap cq') i = Some (workload.NewInfo w)
         ∧ (∀ j x, val (CQ_heap cq') j = Some x →
                   workload.Key (workload.Obj x) = workload.Key w → j = i)
         ∧ heapImpl.Len (CQ_heap cq') = heapImpl.Len (CQ_heap cq)).
Proof.
  intros Hreach. pose proof (reachable_inv cq Hreach) as Hinv.
  split; [by apply cq_inv_unique_keys|]. split; [|split].
  - intros o cq' Hrun. apply cq_inv_unique_keys, reachable_inv.
    by eapply reachable_step.
  - apply PushIfNotPresent_present.
  - intros w [item Hitem].
    destruct (PushOrUpdate_spec cq w Hinv) as (cq' & Hpush & Hinv' & Hc & Hlen).
    rewrite Hitem in Hlen.
    destruct (contents_val (CQ_heap cq') (workload.Key w) (workload.NewInfo w))
      as (i & Hi & _); [apply Hinv'|by rewrite Hc, lookup_insert_eq|].
    exists cq', i. split; [done|]. split; [done|]. split; [|done].
    intros j x Hj Hkey.
    by apply (cq_inv_unique_keys cq' Hinv' j i x (workload.NewInfo w)).
Qed.

Lemma membership_unique_witness :
  unique_keys example_cq
  ∧ (∀ o cq', run_op example_cq o = Some cq' → unique_keys cq')
  ∧ (∀ info,
       is_Some (heapImpl_items (CQ_heap example_cq)
                !! workload.Key (workload.Obj info)) →
       ClusterQueue.PushIfNotPresent example_cq info
       = Some (false, example_cq))
  ∧ (∀ w,
       is_Some (heapImpl_items (CQ_heap example_cq) !! workload.Key w) →
       ∃ cq' i,
         ClusterQueue.PushOrUpdate example_cq w = Some cq'
         ∧ val (CQ_heap cq') i = Some (workload.NewInfo w)
         ∧ (∀ j x, val (CQ_heap cq') j = Some x →
                   workload.Key (workload.Obj x) = workload.Key w → j = i)
         ∧ heapImpl.Len (CQ_heap cq') = heapImpl.Len (CQ_heap example_cq)).
Proof. apply (membership_unique example_cq), reachable_example_cq. Defined.

(** ** Bulk transfer *)

Lemma reachable_queue_keyed (q : Queue) : reachable_queue q → keyed q.
Proof.
  induction 1 as [a|q a _ IH|q w _ IH]; intros k info; simpl.
  - by rewrite lookup_empty.
  - apply IH.
  - unfold Queue.AddOrUpdate.
    destruct (Queue_items q !! workload.Key w) as [old|]; simpl;
      (destruct (decide (workload.Key w = k)) as [<-|Hne];
       [rewrite lookup_insert_eq; by intros [= <-]
       |rewrite lookup_insert_ne by done; apply IH]).
Qed.

Lemma visits_NoDup (q : Queue) (ws : list workload.Info) :
  keyed q → visits q ws →
  NoDup ((λ w, workload.Key (workload.Obj w)) <$> ws).
Proof.
  intros Hk Hv. unfold visits in Hv. rewrite Hv.
  assert ((λ w, workload.Key (workload.Obj w))
            <$> (map_to_list (Queue_items q)).*2
          = (map_to_list (Queue_items q)).*1) as ->.
  { rewrite <- list_fmap_compose. apply list_fmap_ext.
    intros i [k info] Hi. simpl. apply Hk.
    apply elem_of_map_to_list. apply list_elem_of_lookup. eauto. }
  apply NoDup_fst_map_to_list.
Qed.

Lemma absent_ext (cq cq' : ClusterQueue) (ws : list workload.Info) :
  (∀ w, w ∈ ws →
     heapImpl_items (CQ_heap cq') !! workload.Key (workload.Obj w) = None
     ↔ heapImpl_items (CQ_heap cq) !! workload.Key (workload.Obj w) = None) →
  absent cq' ws = absent cq ws.
Proof.
  unfold absent. induction ws as [|w ws IH]; intros H; [done|].
  rewrite !filter_cons.
  rewrite IH by (intros; apply H; by apply list_elem_of_further).
  pose proof (H w (list_elem_of_here _ _)) as Hw.
  repeat case_decide; tauto || done.
Qed.

Lemma items_None_contents (h : heapImpl) (k : string) :
  heapImpl_items h !! k = None ↔ contents h !! k = None.
Proof. rewrite lookup_contents. by rewrite fmap_None. Qed.

Lemma AddFromQueue_range_count (ws : list workload.Info) : ∀ added cq,
  cq_inv cq →
  NoDup ((λ w, workload.Key (workload.Obj w)) <$> ws) →
  ∃ cq', ClusterQueue.AddFromQueue_range ws added cq
         = Some (match absent cq ws with [] => added | _ => true end, cq')
    ∧ cq_inv cq'
    ∧ heapImpl.Len (CQ_heap cq')
      = heapImpl.Len (CQ_heap cq) + length (absent cq ws)
    ∧ (∀ k y, contents (CQ_heap cq) !! k = Some y →
              contents (CQ_heap cq') !! k = Some y)
    ∧ (∀ w, w ∈ absent cq ws →
            contents (CQ_heap cq') !! workload.Key (workload.Obj w) = Some w).
Proof.
  induction ws as [|w ws IH]; intros added cq Hinv Hnd.
  - exists cq. simpl. split; [done|]. split; [done|]. split; [lia|].
    split; [done|]. intros w Hw. by apply elem_of_nil in Hw.
  - rewrite fmap_cons in Hnd. apply NoDup_cons in Hnd as [Hw Hnd].
    simpl.
    destruct (heapImpl_items (CQ_heap cq) !! workload.Key (workload.Obj w))
      as [it|] eqn:Hit.
    + rewrite PushIfNotPresent_present by eauto. simpl.
      assert (absent cq (w :: ws) = absent cq ws) as ->.
      { unfold absent. rewrite filter_cons_False; [done|]. by rewrite Hit. }
      by apply IH.
    + destruct (PushIfNotPresent_absent cq w Hinv Hit)
        as (cq1 & -> & Hinv1 & Hc1 & Hlen1).
      simpl.
      assert (absent cq (w :: ws) = w :: absent cq ws) as ->.
      { unfold absent. by rewrite filter_cons_True. }
      assert (absent cq1 ws = absent cq ws) as Habs.
      { apply absent_ext. intros y Hy.
        rewrite !items_None_contents, Hc1, lookup_insert_ne; [done|].
        intros E. apply Hw. rewrite E.
        by apply (list_elem_of_fmap_2
                    (λ w, workload.Key (workload.Obj w))). }
      destruct (IH true cq1 Hinv1 Hnd) as (cq' & Hrun & Hinv' & Hlen & Hold & Hnew).
      rewrite Habs in *.
      exists cq'. split.
      { rewrite Hrun. by destruct (absent cq ws). }
      split; [done|]. split; [simpl; lia|]. split.
      * intros k y Hy. apply Hold. rewrite Hc1.
        destruct (decide (workload.Key (workload.Obj w) = k)) as [<-|Hne].
        -- apply items_None_contents in Hit. congruence.
        -- by rewrite lookup_insert_ne.
      * intros y Hy. apply elem_of_cons in Hy as [->|Hy]; [|by apply Hnew].
        apply Hold. by rewrite Hc1, lookup_insert_eq.
Qed.

Lemma absent_nil (cq : ClusterQueue) (ws : list workload.Info) :
  Forall (λ w, is_Some (heapImpl_items (CQ_heap cq)
                        !! workload.Key (workload.Obj w))) ws →
  absent cq ws = [].
Proof.
  unfold absent. induction 1 as [|w ws [it Hw] _ IH]; [done|].
  rewrite filter_cons_False; [done|]. by rewrite Hw.
Qed.

Lemma absent_cons (cq : ClusterQueue) (ws : list workload.Info) :
  Exists (λ w, heapImpl_items (CQ_heap cq)
               !! workload.Key (workload.Obj w) = None) ws →
  ∃ w l, absent cq ws = w :: l.
Proof.
  intros Hex. apply Exists_exists in Hex as (w & Hw & Hnone).
  assert (w ∈ absent cq ws) as Hin.
  { unfold absent. by apply list_elem_of_filter. }
  destruct (absent cq ws) as [|w' l]; [by apply elem_of_nil in Hin|eauto].
Qed.

(** C8: [AddFromQueue], visiting the items of a queue in any order,
    never panics. When every item is already in the cluster queue it
    returns false and the number of entries is unchanged; when some item
    is not, it returns true and the number of entries grows by the number
    of items that were not there, each of which is there afterwards. *)
Theorem AddFromQueue_spec (cq : ClusterQueue) (q : Queue)
    (ws : list workload.Info) :
  reachable cq → reachable_queue q → visits q ws →
  ∃ b cq',
    ClusterQueue.AddFromQueue_range ws false cq = Some (b, cq')
    ∧ (Forall (λ w, is_Some (heapImpl_items (CQ_heap cq)
                             !! workload.Key (workload.Obj w))) ws →
       b = false
       ∧ heapImpl.Len (CQ_heap cq') = heapImpl.Len (CQ_heap cq))
    ∧ (Exists (λ w, heapImpl_items (CQ_heap cq)
                    !! workload.Key (workload.Obj w) = None) ws →
       b = true
       ∧ heapImpl.Len (CQ_heap cq')
         = heapImpl.Len (CQ_heap cq) + length (absent cq ws)
       ∧ 0 < length (absent cq ws)
       ∧ ∀ w, w ∈ absent cq ws →
              contents (CQ_heap cq') !! workload.Key (workload.Obj w)
              = Some w).
Proof.
  intros Hreach Hq Hv.
  pose proof (visits_NoDup q ws (reachable_queue_keyed q Hq) Hv) as Hnd.
  destruct (AddFromQueue_range_count ws false cq (reachable_inv cq Hreach) Hnd)
    as (cq' & Hrun & _ & Hlen & _ & Hnew).
  eexists _, cq'. split; [done|]. split.
  - intros Hall. rewrite (absent_nil cq ws Hall) in *.
    simpl in Hlen. split; [done|lia].
  - intros Hex. destruct (absent_cons cq ws Hex) as (w & l & E).
    rewrite E in *. simpl. split; [done|]. split; [done|].
    split; [lia|done].
Qed.

Lemma AddFromQueue_spec_witness :
  let ws := (map_to_list (Queue_items example_queue)).*2 in
  ∃ b cq',
    ClusterQueue.AddFromQueue_range ws false example_cq_a = Some (b, cq')
    ∧ (Forall (λ w, is_Some (heapImpl_items (CQ_heap example_cq_a)
                             !! workload.Key (workload.Obj w))) ws →
       b = false
       ∧ heapImpl.Len (CQ_heap cq') = heapImpl.Len (CQ_heap example_cq_a))
    ∧ (Exists (λ w, heapImpl_items (CQ_heap example_cq_a)
                    !! workload.Key (workload.Obj w) = None) ws →
       b = true
       ∧ heapImpl.Len (CQ_heap cq')
         = heapImpl.Len (CQ_heap example_cq_a)
           + length (absent example_cq_a ws)
       ∧ 0 < length (absent example_cq_a ws)
       ∧ ∀ w, w ∈ absent example_cq_a ws →
              contents (CQ_heap cq') !! workload.Key (workload.Obj w)
              = Some w).
Proof.
  apply (AddFromQueue_spec example_cq_a example_queue
           (map_to_list (Queue_items example_queue)).*2).
  - exists (mkApiClusterQueue StrictFIFO), new_cq, [OpPushOrUpdate job_a].
    split; [reflexivity|]. vm_compute. reflexivity.
  - unfold example_queue. repeat constructor.
  - unfold visits. reflexivity.
Defined.

(** ** Keys *)

Lemma slash_key_inj (ns1 n1 ns2 n2 : string) :
  slash_free ns1 = true → slash_free ns2 = true →
  ns1 +:+ "/" +:+ n1 = ns2 +:+ "/" +:+ n2 → ns1 = ns2 ∧ n1 = n2.
Proof.
  assert (∀ c s t, String c s +:+ t = String c (s +:+ t)) as Hcons by done.
  assert (∀ t, "" +:+ t = t) as Hnil by done.
  revert ns2. induction ns1 as [|c ns1 IH]; intros [|c2 ns2];
    rewrite ?Hcons, ?Hnil; cbn [slash_free].
  - intros _ _ E. by injection E as ->.
  - destruct (Ascii.eqb_spec c2 "/"%char) as [->|Hc]; [done|].
    intros _ _ E. injection E as E _. by rewrite E in Hc.
  - destruct (Ascii.eqb_spec c "/"%char) as [->|Hc]; [done|].
    intros _ _ E. by injection E as E _.
  - destruct (Ascii.eqb_spec c "/"%char); [done|].
    destruct (Ascii.eqb_spec c2 "/"%char); [done|].
    intros H1 H2 E. injection E as -> E.
    destruct (IH ns2 H1 H2 E) as [-> ->]. done.
Qed.

(** X1: two workloads whose namespaces contain no ['/'] have the same key
    only if they have the same namespace and the same name. *)
Theorem Key_inj (w1 w2 : QueuedWorkload) :
  slash_free (Namespace w1) = true → slash_free (Namespace w2) = true →
  workload.Key w1 = workload.Key w2 →
  Namespace w1 = Namespace w2 ∧ Name w1 = Name w2.
Proof. unfold workload.Key. apply slash_key_inj. Qed.

Lemma Key_inj_witness :
  Namespace job_old = Namespace job_new ∧ Name job_old = Name job_new.
Proof. apply (Key_inj job_old job_new); reflexivity. Defined.

(** ** The maps of [Requests], entry by entry *)

Lemma wrap_add_l (a b : Z) :
  Int64.wrap (Int64.wrap a + b) = Int64.wrap (a + b).
Proof.
  unfold Int64.wrap. f_equal.
  replace ((a + 2 ^ 63) `mod` 2 ^ 64 - 2 ^ 63 + b + 2 ^ 63)%Z
    with ((a + 2 ^ 63) `mod` 2 ^ 64 + b)%Z by lia.
  rewrite Zplus_mod_idemp_l. f_equal. lia.
Qed.

Lemma Int64_add_swap (a b c : Z) :
  Int64.add (Int64.add a b) c = Int64.add (Int64.add a c) b.
Proof.
  unfold Int64.add. rewrite !wrap_add_l. f_equal. lia.
Qed.

Lemma max_swap (a b c : Z) :
  workload.max (workload.max a b) c = workload.max (workload.max a c) b.
Proof. rewrite !max_Zmax. lia. Qed.

Lemma lookup_add (r o : gmap ResourceName Z) (n : ResourceName) :
  workload.add r o !! n =
  match o !! n with
  | Some v => Some (Int64.add (workload.get r n) v)
  | None => r !! n
  end.
Proof.
  unfold workload.add. revert n.
  apply (map_fold_weak_ind
           (λ (r' : gmap ResourceName Z) (m : gmap ResourceName Z),
              ∀ n, r' !! n =
                   match m !! n with
                   | Some v => Some (Int64.add (workload.get r n) v)
                   | None => r !! n
                   end)).
  - intros n. by rewrite lookup_empty.
  - intros i x m r' Hi IH n. destruct (decide (i = n)) as [->|Hne].
    + rewrite !lookup_insert_eq. unfold workload.get at 1.
      by rewrite IH, Hi.
    + rewrite !lookup_insert_ne by done. apply IH.
Qed.

Lemma lookup_setMax (r o : gmap ResourceName Z) (n : ResourceName) :
  workload.setMax r o !! n =
  match o !! n with
  | Some v => Some (workload.max (workload.get r n) v)
  | None => r !! n
  end.
Proof.
  unfold workload.setMax. revert n.
  apply (map_fold_weak_ind
           (λ (r' : gmap ResourceName Z) (m : gmap ResourceName Z),
              ∀ n, r' !! n =
                   match m !! n with
                   | Some v => Some (workload.max (workload.get r n) v)
                   | None => r !! n
                   end)).
  - intros n. by rewrite lookup_empty.
  - intros i x m r' Hi IH n. destruct (decide (i = n)) as [->|Hne].
    + rewrite !lookup_insert_eq. unfold workload.get at 1.
      by rewrite IH, Hi.
    + rewrite !lookup_insert_ne by done. apply IH.
Qed.

Lemma lookup_fold_add (cs : list Container) (r : gmap ResourceName Z) n :
  foldl (λ res c, workload.add res
                    (workload.newRequests (Container_Requests c))) r cs !! n
  = slot_sum (r !! n) cs n.
Proof.
  revert r. induction cs as [|c cs IH]; intros r; simpl; [done|].
  rewrite IH. unfold slot_sum. simpl. f_equal.
  by rewrite lookup_add, lookup_newRequests.
Qed.

Lemma lookup_fold_setMax (cs : list Container) (r : gmap ResourceName Z) n :
  foldl (λ res c, workload.setMax res
                    (workload.newRequests (Container_Requests c))) r cs !! n
  = slot_max (r !! n) cs n.
Proof.
  revert r. induction cs as [|c cs IH]; intros r; simpl; [done|].
  rewrite IH. unfold slot_max. simpl. f_equal.
  by rewrite lookup_setMax, lookup_newRequests.
Qed.

Lemma lookup_podRequests (spec : PodSpec) (n : ResourceName) :
  workload.podRequests spec !! n =
  let m := slot_max (slot_sum None (Containers spec) n)
                    (InitContainers spec) n in
  match req (Overhead spec) n with
  | Some v => Some (Int64.add (default 0%Z m) v)
  | None => m
  end.
Proof.
  unfold workload.podRequests.
  rewrite lookup_add, lookup_newRequests. unfold workload.get.
  by rewrite lookup_fold_setMax, lookup_fold_add, lookup_empty.
Qed.

Lemma slot_sum_perm (cs cs' : list Container) n :
  cs ≡ₚ cs' → ∀ acc, slot_sum acc cs n = slot_sum acc cs' n.
Proof.
  unfold slot_sum.
  induction 1 as [|c cs cs' _ IH|c1 c2 cs|cs1 cs2 cs3 _ IH1 _ IH2];
    intros acc; simpl.
  - done.
  - apply IH.
  - f_equal.
    destruct (req (Container_Requests c1) n) as [v1|],
             (req (Container_Requests c2) n) as [v2|]; simpl; try done.
    by rewrite Int64_add_swap.
  - by rewrite IH1.
Qed.

Lemma slot_max_perm (cs cs' : list Container) n :
  cs ≡ₚ cs' → ∀ acc, slot_max acc cs n = slot_max acc cs' n.
Proof.
  unfold slot_max.
  induction 1 as [|c cs cs' _ IH|c1 c2 cs|cs1 cs2 cs3 _ IH1 _ IH2];
    intros acc; simpl.
  - done.
  - apply IH.
  - f_equal.
    destruct (req (Container_Requests c1) n) as [v1|],
             (req (Container_Requests c2) n) as [v2|]; simpl; try done.
    by rewrite max_swap.
  - by rewrite IH1.
Qed.

(** X2: the requests of a pod do not depend on the order in which its
    containers, or its init containers, are listed. *)
Theorem podRequests_perm (spec spec' : PodSpec) :
  Containers spec ≡ₚ Containers spec' →
  InitContainers spec ≡ₚ InitContainers spec' →
  Overhead spec = Overhead spec' →
  workload.podRequests spec = workload.podRequests spec'.
Proof.
  intros Hc Hi Ho. apply map_eq. intros n.
  rewrite !lookup_podRequests. simpl.
  by rewrite (slot_sum_perm _ _ n Hc), (slot_max_perm _ _ n Hi), Ho.
Qed.

Lemma podRequests_perm_witness :
  workload.podRequests
    (mkPodSpec [mkContainer (cpu 100); mkContainer (cpu 200)]
               [mkContainer (cpu 500)] (cpu 50))
  = workload.podRequests
      (mkPodSpec [mkContainer (cpu 200); mkContainer (cpu 100)]
                 [mkContainer (cpu 500)] (cpu 50)).
Proof.
  apply (podRequests_perm
           (mkPodSpec [mkContainer (cpu 100); mkContainer (cpu 200)]
                      [mkContainer (cpu 500)] (cpu 50))
           (mkPodSpec [mkContainer (cpu 200); mkContainer (cpu 100)]
                      [mkContainer (cpu 500)] (cpu 50))).
  - apply Permutation_swap.
  - reflexivity.
  - reflexivity.
Defined.

Lemma slot_sum_is_Some (cs : list Container) n : ∀ acc,
  is_Some (slot_sum acc cs n)
  ↔ is_Some acc ∨ Exists (λ c, is_Some (Container_Requests c !! n)) cs.
Proof.
  unfold slot_sum. induction cs as [|c cs IH]; intros acc; simpl.
  - rewrite Exists_nil. tauto.
  - rewrite IH, Exists_cons. unfold req.
    destruct (Container_Requests c !! n) as [q|]; simpl.
    + split; [intros _|intros _; left; by eexists].
      right. left. by eexists.
    + rewrite <- not_eq_None_Some. split; [tauto|].
      intros [?|[[]|?]]; tauto || done.
Qed.

Lemma slot_max_is_Some (cs : list Container) n : ∀ acc,
  is_Some (slot_max acc cs n)
  ↔ is_Some acc ∨ Exists (λ c, is_Some (Container_Requests c !! n)) cs.
Proof.
  unfold slot_max. induction cs as [|c cs IH]; intros acc; simpl.
  - rewrite Exists_nil. tauto.
  - rewrite IH, Exists_cons. unfold req.
    destruct (Container_Requests c !! n) as [q|]; simpl.
    + split; [intros _|intros _; left; by eexists].
      right. left. by eexists.
    + rewrite <- not_eq_None_Some. split; [tauto|].
      intros [?|[[]|?]]; tauto || done.
Qed.

(** X3: [podRequests] has an entry for a resource exactly when a
    container, an init container or the overhead names it; a named
    resource keeps its entry even when the quantities add up to zero. *)
Theorem podRequests_names (spec : PodSpec) (n : ResourceName) :
  is_Some (workload.podRequests spec !! n) ↔ names spec n.
Proof.
  rewrite lookup_podRequests. unfold names, req. simpl.
  rewrite Exists_app.
  pose proof (slot_max_is_Some (InitContainers spec) n
                (slot_sum None (Containers spec) n)) as Hm.
  rewrite slot_sum_is_Some in Hm.
  destruct (Overhead spec !! n) as [q|]; simpl.
  - split; intros _; [right|]; by eexists.
  - rewrite Hm. rewrite <- !not_eq_None_Some. split.
    + intros [[?|?]|?]; tauto.
    + intros [[?|?]|?]; tauto.
Qed.

(** ** The entries of [totalRequests] *)

Lemma foldl_snoc_fmap {A B} (f : A → B) (l : list A) (acc : list B) :
  foldl (λ res x, res ++ [f x]) acc l = acc ++ (f <$> l).
Proof.
  revert acc. induction l as [|x l IH]; intros acc; simpl.
  - by rewrite app_nil_r.
  - by rewrite IH, <- app_assoc.
Qed.

Lemma totalRequests_fmap (spec : QueuedWorkloadSpec) :
  workload.totalRequests spec
  = workload.podSetResources (flavorsTable spec) <$> PodSets spec.
Proof.
  unfold workload.totalRequests, flavorsTable.
  destruct (PodSets spec) as [|ps l] eqn:E; [done|].
  by rewrite foldl_snoc_fmap.
Qed.

(** X4: [totalRequests] has one entry per pod set, in the order of the
    pod sets; the entry carries the name of its pod set and the requests
    of one pod scaled by the count of the pod set. *)
Theorem totalRequests_entries (spec : QueuedWorkloadSpec) :
  length (workload.totalRequests spec) = length (PodSets spec)
  ∧ ∀ i ps, PodSets spec !! i = Some ps →
      ∃ r, workload.totalRequests spec !! i = Some r
        ∧ workload.PSR_Name r = PodSet_Name ps
        ∧ workload.PSR_Requests r
          = workload.scale (workload.podRequests (PodSet_Spec ps))
                           (PodSet_Count ps).
Proof.
  rewrite totalRequests_fmap. split; [by rewrite length_fmap|].
  intros i ps Hi. eexists. rewrite list_lookup_fmap, Hi. by simpl.
Qed.

(** X5: the names and the requests in [totalRequests] are those of the
    pod sets alone: the admission, the priority and the queue name of
    the workload do not enter them. *)
Theorem totalRequests_requests_only_pods (spec spec' : QueuedWorkloadSpec) :
  PodSets spec = PodSets spec' →
  (λ r, (workload.PSR_Name r, workload.PSR_Requests r))
    <$> workload.totalRequests spec
  = (λ r, (workload.PSR_Name r, workload.PSR_Requests r))
    <$> workload.totalRequests spec'.
Proof.
  intros E. rewrite !totalRequests_fmap, E, <- !list_fmap_compose. done.
Qed.

Lemma totalRequests_requests_only_pods_witness :
  (λ r, (workload.PSR_Name r, workload.PSR_Requests r))
    <$> workload.totalRequests
          (mkQueuedWorkloadSpec (pods_cpu 100) "queue" None 0)
  = (λ r, (workload.PSR_Name r, workload.PSR_Requests r))
    <$> workload.totalRequests
          (mkQueuedWorkloadSpec (pods_cpu 100) "other"
             (Some (mkAdmission "cq"
                      [mkPodSetFlavors "main" {[ResourceCPU := "spot"]}]))
             7).
Proof.
  apply (totalRequests_requests_only_pods
           (mkQueuedWorkloadSpec (pods_cpu 100) "queue" None 0)
           (mkQueuedWorkloadSpec (pods_cpu 100) "other"
              (Some (mkAdmission "cq"
                       [mkPodSetFlavors "main" {[ResourceCPU := "spot"]}]))
              7)).
  reflexivity.
Defined.

Lemma lookup_fold_flavors (l : list PodSetFlavors)
    (m : gmap string (gmap ResourceName string)) (name : string) :
  Forall (λ p, PodSetFlavors_Name p ≠ name) l →
  foldl (λ m ps, <[PodSetFlavors_Name ps := PodSetFlavors_Flavors ps]> m)
        m l !! name = m !! name.
Proof.
  intros Hl. revert m. induction Hl as [|p l Hp _ IH]; intros m; simpl.
  - done.
  - rewrite IH. by rewrite lookup_insert_ne.
Qed.

Lemma podSetFlavorsOf_last (a : Admission) (l1 l2 : list PodSetFlavors)
    (psf : PodSetFlavors) :
  Admission_PodSetFlavors a = l1 ++ psf :: l2 →
  Forall (λ p, PodSetFlavors_Name p ≠ PodSetFlavors_Name psf) l2 →
  workload.podSetFlavorsOf a !! PodSetFlavors_Name psf
  = Some (PodSetFlavors_Flavors psf).
Proof.
  intros E Hl2. unfold workload.podSetFlavorsOf.
  rewrite E, foldl_app. simpl.
  rewrite lookup_fold_flavors by done. by rewrite lookup_insert_eq.
Qed.

(** X6: with an admission, the entry of a pod set carries the flavors of
    the last element of [Admission.PodSetFlavors] that bears the name of
    the pod set. *)
Theorem totalRequests_flavors_bound (spec : QueuedWorkloadSpec)
    (a : Admission) (l1 l2 : list PodSetFlavors) (psf : PodSetFlavors)
    (i : nat) (ps : PodSet) :
  Spec_Admission spec = Some a →
  Admission_PodSetFlavors a = l1 ++ psf :: l2 →
  Forall (λ p, PodSetFlavors_Name p ≠ PodSetFlavors_Name psf) l2 →
  PodSets spec !! i = Some ps →
  PodSet_Name ps = PodSetFlavors_Name psf →
  ∃ r, workload.totalRequests spec !! i = Some r
       ∧ workload.PSR_Flavors r = PodSetFlavors_Flavors psf.
Proof.
  intros Ha El Hl2 Hi Hname.
  rewrite totalRequests_fmap, list_lookup_fmap, Hi. simpl.
  eexists. split; [done|]. simpl.
  unfold flavorsTable. rewrite Ha, Hname.
  by rewrite (podSetFlavorsOf_last a l1 l2 psf El Hl2).
Qed.

Lemma totalRequests_flavors_bound_witness :
  ∃ r, workload.totalRequests
         (mkQueuedWorkloadSpec (pods_cpu 100) "queue"
            (Some (mkAdmission "cq"
                     [mkPodSetFlavors "main" {[ResourceCPU := "spot"]};
                      mkPodSetFlavors "main" {[ResourceCPU := "on-demand"]}]))
            0) !! 0 = Some r
       ∧ workload.PSR_Flavors r = {[ResourceCPU := "on-demand"]}.
Proof.
  refine (totalRequests_flavors_bound
           (mkQueuedWorkloadSpec (pods_cpu 100) "queue"
              (Some (mkAdmission "cq"
                       [mkPodSetFlavors "main" {[ResourceCPU := "spot"]};
                        mkPodSetFlavors "main"
                          {[ResourceCPU := "on-demand"]}]))
              0)
           (mkAdmission "cq"
              [mkPodSetFlavors "main" {[ResourceCPU := "spot"]};
               mkPodSetFlavors "main" {[ResourceCPU := "on-demand"]}])
           [mkPodSetFlavors "main" {[ResourceCPU := "spot"]}] []
           (mkPodSetFlavors "main" {[ResourceCPU := "on-demand"]})
           0 (mkPodSet "main" (mkPodSpec [mkContainer (cpu 100)] [] ∅) 1)
           _ _ _ _ _).
  - reflexivity.
  - reflexivity.
  - apply Forall_nil_2.
  - reflexivity.
  - reflexivity.
Defined.

(** X7: without an admission, or when the admission does not name the
    pod set, the entry of the pod set carries no flavors. *)
Theorem totalRequests_flavors_unbound (spec : QueuedWorkloadSpec)
    (i : nat) (r : workload.PodSetResources) :
  (∀ a, Spec_Admission spec = Some a →
        Forall (λ p, Some (PodSetFlavors_Name p)
                     ≠ PodSet_Name <$> PodSets spec !! i)
               (Admission_PodSetFlavors a)) →
  workload.totalRequests spec !! i = Some r →
  workload.PSR_Flavors r = ∅.
Proof.
  intros Ha. rewrite totalRequests_fmap, list_lookup_fmap.
  destruct (PodSets spec !! i) as [ps|] eqn:Hi; [|done].
  simpl. intros [= <-]. simpl. unfold flavorsTable.
  destruct (Spec_Admission spec) as [a|]; [|by rewrite lookup_empty].
  unfold workload.podSetFlavorsOf. rewrite lookup_fold_flavors.
  - by rewrite lookup_empty.
  - eapply Forall_impl; [by apply Ha|]. simpl. intros p Hp E. apply Hp.
    by rewrite E.
Qed.

Lemma totalRequests_flavors_unbound_witness :
  workload.PSR_Flavors
    (workload.podSetResources ∅
       (mkPodSet "main" (mkPodSpec [mkContainer (cpu 100)] [] ∅) 1)) = ∅.
Proof.
  apply (totalRequests_flavors_unbound
           (mkQueuedWorkloadSpec (pods_cpu 100) "queue" None 0) 0).
  - intros a Ha. discriminate Ha.
  - reflexivity.
Defined.

(** ** Quantities *)

(** X8: reading back, with [ResourceValue], the quantity that
    [ResourceQuantity] builds from an integer gives the integer, for
    every resource name: both functions treat CPU, and CPU alone, in
    milli-units. The constructors are those of [resource]: the milli
    value of [NewMilliQuantity v] is [v], the value of [NewQuantity v]
    is [v]. *)
Theorem ResourceValue_ResourceQuantity
    (NewMilliQuantity NewQuantity : Z → Format → Quantity)
    (name : ResourceName) (v : Z) :
  (∀ v f, MilliValue (NewMilliQuantity v f) = v) →
  (∀ v f, Value (NewQuantity v f) = v) →
  workload.ResourceValue name
    (ResourceQuantity NewMilliQuantity NewQuantity name v) = v.
Proof.
  intros Hm Hv. unfold workload.ResourceValue, ResourceQuantity.
  destruct (decide (name = ResourceCPU)); [done|].
  destruct (decide (name = ResourceMemory ∨ name = ResourceEphemeralStorage));
    [done|].
  by destruct (String.prefix ResourceHugePagesPrefix name).
Qed.

Lemma ResourceValue_ResourceQuantity_witness :
  workload.ResourceValue "hugepages-2Mi"
    (ResourceQuantity (λ v _, mkQuantity v ((v + 999) / 1000))
                      (λ v _, mkQuantity (v * 1000) v)
                      "hugepages-2Mi" 4) = 4%Z.
Proof.
  apply (ResourceValue_ResourceQuantity
           (λ v _, mkQuantity v ((v + 999) / 1000))
           (λ v _, mkQuantity (v * 1000) v) "hugepages-2Mi" 4).
  - reflexivity.
  - reflexivity.
Defined.

(** ** Queues *)

(** X9: a workload is routed to a queue by [queueKeyForWorkload] exactly
    when it lives in the namespace of the queue and asks for the queue by
    name, provided the two namespaces contain no ['/']. *)
Theorem queueKeyForWorkload_Key (w : QueuedWorkload) (q : apiQueueMeta) :
  slash_free (Namespace w) = true → slash_free (apiQueue_Namespace q) = true →
  queue.queueKeyForWorkload w = queue.Key q
  ↔ Namespace w = apiQueue_Namespace q ∧ QueueName (Spec w) = apiQueue_Name q.
Proof.
  intros Hw Hq. unfold queue.queueKeyForWorkload, queue.Key. split.
  - by apply slash_key_inj.
  - by intros [-> ->].
Qed.

Lemma queueKeyForWorkload_Key_witness :
  queue.queueKeyForWorkload job_a = queue.Key (mkApiQueueMeta "ns" "queue")
  ↔ Namespace job_a = "ns" ∧ QueueName (Spec job_a) = "queue".
Proof.
  apply (queueKeyForWorkload_Key job_a (mkApiQueueMeta "ns" "queue"));
    reflexivity.
Defined.

(** X10: in every queue the package can build, each item is stored under
    the key of the workload it currently holds. *)
Theorem Queue_items_keyed (q : Queue) (k : string) (info : workload.Info) :
  reachable_queue q → Queue_items q !! k = Some info →
  workload.Key (workload.Obj info) = k.
Proof. intros Hq. by apply reachable_queue_keyed. Qed.

Lemma Queue_items_keyed_witness :
  workload.Key (workload.Obj (workload.NewInfo job_a)) = workload.Key job_a.
Proof.
  apply (Queue_items_keyed example_queue (workload.Key job_a)
           (workload.NewInfo job_a)).
  - unfold example_queue. repeat constructor.
  - vm_compute. reflexivity.
Defined.

(** X11: after [AddOrUpdate q w] the item under the key of [w] holds [w];
    it is the freshly computed info when the key was new; every other
    item, and the destination of the queue, are as before. *)
Theorem AddOrUpdate_lookup (q : Queue) (w : QueuedWorkload) :
  (∃ info, Queue_items (Queue.AddOrUpdate q w) !! workload.Key w = Some info
           ∧ workload.Obj info = w
           ∧ (Queue_items q !! workload.Key w = None →
              info = workload.NewInfo w))
  ∧ (∀ k, k ≠ workload.Key w →
          Queue_items (Queue.AddOrUpdate q w) !! k = Queue_items q !! k)
  ∧ Queue_ClusterQueue (Queue.AddOrUpdate q w) = Queue_ClusterQueue q.
Proof.
  unfold Queue.AddOrUpdate.
  destruct (Queue_items q !! workload.Key w) as [old|] eqn:E; simpl.
  - split; [|split; [|done]].
    + eexists. rewrite lookup_insert_eq. split; [done|]. by split.
    + intros k Hk. by rewrite lookup_insert_ne.
  - split; [|split; [|done]].
    + eexists. rewrite lookup_insert_eq. split; [done|]. by split.
    + intros k Hk. by rewrite lookup_insert_ne.
Qed.

Lemma AddOrUpdate_lookup_entry (q : Queue) (w : QueuedWorkload) :
  ∃ info, Queue_items (Queue.AddOrUpdate q w) !! workload.Key w = Some info
    ∧ workload.mkInfo w (workload.TotalRequests info)
                        (workload.Info_ClusterQueue info) = info.
Proof.
  unfold Queue.AddOrUpdate.
  destruct (Queue_items q !! workload.Key w) as [old|]; simpl;
    eexists; by rewrite lookup_insert_eq.
Qed.

(** X12: [AddOrUpdate] with the same workload a second time changes
    nothing. *)
Theorem AddOrUpdate_idempotent (q : Queue) (w : QueuedWorkload) :
  Queue.AddOrUpdate (Queue.AddOrUpdate q w) w = Queue.AddOrUpdate q w.
Proof.
  destruct (AddOrUpdate_lookup_entry q w) as (info & Hl & Hinfo).
  set (q' := Queue.AddOrUpdate q w) in *.
  unfold Queue.AddOrUpdate. rewrite Hl, Hinfo, insert_id by done.
  by destruct q'.
Qed.

Lemma dom_AddOrUpdate (q : Queue) (w : QueuedWorkload) :
  dom (Queue_items (Queue.AddOrUpdate q w))
  = {[workload.Key w]} ∪ dom (Queue_items q).
Proof.
  unfold Queue.AddOrUpdate.
  destruct (Queue_items q !! workload.Key w); simpl; apply dom_insert_L.
Qed.

Lemma dom_fold_AddOrUpdate (ws : list QueuedWorkload) : ∀ q,
  dom (Queue_items (foldl Queue.AddOrUpdate q ws))
  = list_to_set (workload.Key <$> ws) ∪ dom (Queue_items q).
Proof.
  induction ws as [|w ws IH]; intros q; simpl.
  - by rewrite (left_id_L ∅ (∪)).
  - rewrite IH, dom_AddOrUpdate.
    rewrite (comm_L (∪) {[workload.Key w]} (list_to_set _)).
    by rewrite (assoc_L (∪)).
Qed.

(** X13: a new queue to which workloads with pairwise different keys are
    added holds as many items as workloads were added. *)
Theorem AddOrUpdate_count (a : apiQueue) (ws : list QueuedWorkload) :
  NoDup (workload.Key <$> ws) →
  size (Queue_items (foldl Queue.AddOrUpdate (Queue.newQueue a) ws))
  = length ws.
Proof.
  intros Hnd. rewrite <- size_dom, dom_fold_AddOrUpdate. simpl.
  rewrite dom_empty_L, (right_id_L ∅ (∪)).
  rewrite size_list_to_set by done. by rewrite length_fmap.
Qed.

Lemma AddOrUpdate_count_witness :
  size (Queue_items (foldl Queue.AddOrUpdate
                           (Queue.newQueue (mkApiQueue "cq"))
                           [job_a; job_b; job_c]))
  = length [job_a; job_b; job_c].
Proof.
  apply (AddOrUpdate_count (mkApiQueue "cq") [job_a; job_b; job_c]).
  apply (bool_decide_unpack _). vm_compute. exact I.
Defined.

(** ** The comparator as an ordering *)

(** X14: [strictFIFO] is a strict weak ordering: it is irreflexive,
    asymmetric and transitive, and two infos neither of which sorts before
    the other have the same priority and the same creation time. *)
Theorem strictFIFO_order :
  (∀ a, strictFIFO a a = false)
  ∧ (∀ a b, strictFIFO a b = true → strictFIFO b a = false)
  ∧ (∀ a b c, strictFIFO a b = true → strictFIFO b c = true →
              strictFIFO a c = true)
  ∧ (∀ a b, strictFIFO a b = false → strictFIFO b a = false →
            utilpriority.Priority (workload.Obj a)
            = utilpriority.Priority (workload.Obj b)
            ∧ CreationTimestamp (workload.Obj a)
              = CreationTimestamp (workload.Obj b)).
Proof.
  split; [|split; [|split]].
  - intros a. apply strictFIFO_false. lia.
  - intros a b. rewrite strictFIFO_true, strictFIFO_false. lia.
  - intros a b c. rewrite !strictFIFO_true. lia.
  - intros a b. rewrite !strictFIFO_false. lia.
Qed.

(** ** The index of a cluster queue *)

Lemma indexed_Len_size (h : heapImpl) :
  indexed h → heapImpl.Len h = size (heapImpl_items h).
Proof.
  intros Hh. unfold heapImpl.Len.
  rewrite <- (size_list_to_set (C := gset string)) by apply Hh.
  rewrite <- size_dom. f_equal. apply set_eq. intros k.
  rewrite elem_of_list_to_set, elem_of_dom, list_elem_of_lookup. split.
  - intros [i Hi]. destruct (indexed_heap h Hh i k Hi) as (it & Hit & _).
    by eexists.
  - intros [it Hit]. eexists. by apply (indexed_items h Hh).
Qed.

Lemma indexed_Len_contents (h : heapImpl) :
  indexed h → heapImpl.Len h = size (contents h).
Proof.
  intros Hh. unfold contents. rewrite map_size_fmap.
  by apply indexed_Len_size.
Qed.



(** X16: the number of entries [Len] reports is the number of keys of
    the map. *)
Theorem Len_size (cq : ClusterQueue) :
  reachable cq →
  heapImpl.Len (CQ_heap cq) = size (heapImpl_items (CQ_heap cq)).
Proof.
  intros Hreach. apply indexed_Len_size, (reachable_inv cq Hreach).
Qed.

Lemma Len_size_witness :
  heapImpl.Len (CQ_heap example_cq) = size (heapImpl_items (CQ_heap example_cq)).
Proof. apply (Len_size example_cq). exact reachable_example_cq. Defined.

(** ** [Pop] *)

Lemma Pop_root (cq : ClusterQueue) :
  cq_inv cq → 0 < heapImpl.Len (CQ_heap cq) →
  ∃ x cq', ClusterQueue.Pop cq = Some (Some x, cq')
    ∧ cq_inv cq'
    ∧ contents (CQ_heap cq) !! workload.Key (workload.Obj x) = Some x
    ∧ (∀ k y, contents (CQ_heap cq) !! k = Some y → not_after x y)
    ∧ contents (CQ_heap cq')
      = delete (workload.Key (workload.Obj x)) (contents (CQ_heap cq))
    ∧ S (heapImpl.Len (CQ_heap cq')) = heapImpl.Len (CQ_heap cq).
Proof.
  intros Hinv Hlen. pose proof (cq_inv_sw cq Hinv) as Hsw.
  destruct (Pop_spec cq Hinv Hlen) as (x & cq' & Hpop & Hx & Hinv' & Hc & Hl).
  exists x, cq'. split; [done|]. split; [done|].
  split; [by eapply val_contents; [apply Hinv|]|].
  split; [|done].
  intros k y Hy.
  destruct (contents_val _ _ _ (inv_indexed _ Hinv) Hy) as (j & Hj & _).
  pose proof (root_min _ x Hsw (inv_indexed _ Hinv) (inv_ordered _ Hinv)
                Hx j y Hj) as Hle.
  by rewrite (inv_less _ Hinv) in Hle.
Qed.

(** X17: [Pop] on a cluster queue with entries returns one of them that
    sorts after no other entry, and removes that entry and no other. *)
Theorem Pop_returns_min (cq : ClusterQueue) :
  reachable cq → 0 < heapImpl.Len (CQ_heap cq) →
  ∃ x cq', ClusterQueue.Pop cq = Some (Some x, cq')
    ∧ contents (CQ_heap cq) !! workload.Key (workload.Obj x) = Some x
    ∧ (∀ k y, contents (CQ_heap cq) !! k = Some y → strictFIFO y x = false)
    ∧ contents (CQ_heap cq')
      = delete (workload.Key (workload.Obj x)) (contents (CQ_heap cq))
    ∧ S (heapImpl.Len (CQ_heap cq')) = heapImpl.Len (CQ_heap cq).
Proof.
  intros Hreach Hlen.
  destruct (Pop_root cq (reachable_inv cq Hreach) Hlen)
    as (x & cq' & Hpop & _ & Hx & Hmin & Hc & Hl).
  by exists x, cq'.
Qed.

Lemma Pop_returns_min_witness :
  ∃ x cq', ClusterQueue.Pop example_cq = Some (Some x, cq')
    ∧ contents (CQ_heap example_cq) !! workload.Key (workload.Obj x) = Some x
    ∧ (∀ k y, contents (CQ_heap example_cq) !! k = Some y →
              strictFIFO y x = false)
    ∧ contents (CQ_heap cq')
      = delete (workload.Key (workload.Obj x)) (contents (CQ_heap example_cq))
    ∧ S (heapImpl.Len (CQ_heap cq')) = heapImpl.Len (CQ_heap example_cq).
Proof.
  apply (Pop_returns_min example_cq).
  - exact reachable_example_cq.
  - vm_compute. lia.
Defined.

Lemma pops_all (n : nat) : ∀ cq,
  cq_inv cq → heapImpl.Len (CQ_heap cq) = n →
  ∃ l cq', pops n cq = Some (Some <$> l, cq')
    ∧ StronglySorted not_after l
    ∧ (∀ k y, contents (CQ_heap cq) !! k = Some y
              ↔ y ∈ l ∧ k = workload.Key (workload.Obj y))
    ∧ heapImpl.Len (CQ_heap cq') = 0.
Proof.
  induction n as [|n IH]; intros cq Hinv Hlen.
  - exists [], cq. split; [done|]. split; [constructor|]. split; [|done].
    intros k y. split.
    + intros Hy.
      destruct (contents_val _ _ _ (inv_indexed _ Hinv) Hy) as (j & Hj & _).
      apply val_lt in Hj. lia.
    + intros [Hy _]. by apply elem_of_nil in Hy.
  - destruct (Pop_root cq Hinv) as (x & cq1 & Hpop & Hinv1 & Hx & Hmin & Hc & Hl);
      [lia|].
    destruct (IH cq1 Hinv1) as (l & cq' & Hpops & Hsorted & Hl' & Hempty);
      [lia|].
    exists (x :: l), cq'. simpl. rewrite Hpop. simpl. rewrite Hpops. simpl.
    split; [done|].
    assert (∀ y, y ∈ l →
              contents (CQ_heap cq) !! workload.Key (workload.Obj y) = Some y
              ∧ workload.Key (workload.Obj y)
                ≠ workload.Key (workload.Obj x)) as Hin.
    { intros y Hy.
      assert (contents (CQ_heap cq1) !! workload.Key (workload.Obj y) = Some y)
        as Hy1 by by apply Hl'.
      rewrite Hc in Hy1. apply lookup_delete_Some in Hy1 as [Hne Hy1].
      split; [done|]. by intros E; apply Hne. }
    split; [|split; [|done]].
    + constructor; [done|]. apply List.Forall_forall. intros y Hy.
      apply list_elem_of_In in Hy. eapply Hmin. by apply Hin.
    + intros k y. rewrite elem_of_cons. split.
      * intros Hy.
        destruct (decide (k = workload.Key (workload.Obj x))) as [->|Hk].
        -- assert (y = x) as -> by congruence. by split; [left|].
        -- assert (contents (CQ_heap cq1) !! k = Some y) as Hy1.
           { rewrite Hc. by apply lookup_delete_Some. }
           apply Hl' in Hy1 as [Hy1 ->]. by split; [right|].
      * intros [[->|Hy] ->]; [done|]. by apply Hin.
Qed.

Lemma pops_length (n : nat) : ∀ cq xs cq',
  pops n cq = Some (xs, cq') → length xs = n.
Proof.
  induction n as [|n IH]; intros cq xs cq'; simpl.
  - by intros [= <- _].
  - destruct (ClusterQueue.Pop cq) as [[x cq1]|]; simpl; [|done].
    destruct (pops n cq1) as [[ys cq2]|] eqn:E; simpl; [|done].
    intros [= <- _]. simpl. f_equal. by eapply IH.
Qed.

(** X18: popping a cluster queue as many times as it has entries returns
    every entry once, in an order in which no entry sorts after a later
    one, and leaves the queue empty. *)
Theorem pops_all_sorted (cq : ClusterQueue) :
  reachable cq →
  ∃ l cq', pops (heapImpl.Len (CQ_heap cq)) cq = Some (Some <$> l, cq')
    ∧ StronglySorted (λ a b, strictFIFO b a = false) l
    ∧ (∀ k y, contents (CQ_heap cq) !! k = Some y
              ↔ y ∈ l ∧ k = workload.Key (workload.Obj y))
    ∧ length l = heapImpl.Len (CQ_heap cq)
    ∧ heapImpl.Len (CQ_heap cq') = 0.
Proof.
  intros Hreach.
  destruct (pops_all _ cq (reachable_inv cq Hreach) eq_refl)
    as (l & cq' & Hpops & Hsorted & Hl & Hempty).
  exists l, cq'. split; [done|]. split; [done|]. split; [done|].
  split; [|done].
  apply pops_length in Hpops. by rewrite length_fmap in Hpops.
Qed.

Lemma pops_all_sorted_witness :
  ∃ l cq',
    pops (heapImpl.Len (CQ_heap example_cq)) example_cq
    = Some (Some <$> l, cq')
    ∧ StronglySorted (λ a b, strictFIFO b a = false) l
    ∧ (∀ k y, contents (CQ_heap example_cq) !! k = Some y
              ↔ y ∈ l ∧ k = workload.Key (workload.Obj y))
    ∧ length l = heapImpl.Len (CQ_heap example_cq)
    ∧ heapImpl.Len (CQ_heap cq') = 0.
Proof. apply (pops_all_sorted example_cq). exact reachable_example_cq. Defined.

(** ** [PushOrUpdate], [PushIfNotPresent] and [Delete] *)

(** X19: [PushOrUpdate] stores the freshly computed info of the workload
    under its key and leaves every other entry as it was; the number of
    entries grows by one when the key is new and stays when it is not. *)
Theorem PushOrUpdate_entries (cq : ClusterQueue) (w : QueuedWorkload) :
  reachable cq →
  ∃ cq', ClusterQueue.PushOrUpdate cq w = Some cq'
    ∧ contents (CQ_heap cq') !! workload.Key w = Some (workload.NewInfo w)
    ∧ (∀ k, k ≠ workload.Key w →
            contents (CQ_heap cq') !! k = contents (CQ_heap cq) !! k)
    ∧ heapImpl.Len (CQ_heap cq')
      = match contents (CQ_heap cq) !! workload.Key w with
        | Some _ => heapImpl.Len (CQ_heap cq)
        | None => S (heapImpl.Len (CQ_heap cq))
        end.
Proof.
  intros Hreach.
  destruct (PushOrUpdate_spec cq w (reachable_inv cq Hreach))
    as (cq' & Hpush & _ & Hc & Hlen).
  exists cq'. split; [done|]. rewrite Hc.
  split; [by rewrite lookup_insert_eq|].
  split; [intros k Hk; by rewrite lookup_insert_ne|].
  rewrite Hlen, lookup_contents.
  by destruct (heapImpl_items (CQ_heap cq) !! workload.Key w).
Qed.

Lemma PushOrUpdate_entries_witness :
  ∃ cq', ClusterQueue.PushOrUpdate example_cq_a job_b = Some cq'
    ∧ contents (CQ_heap cq') !! workload.Key job_b
      = Some (workload.NewInfo job_b)
    ∧ (∀ k, k ≠ workload.Key job_b →
            contents (CQ_heap cq') !! k = contents (CQ_heap example_cq_a) !! k)
    ∧ heapImpl.Len (CQ_heap cq')
      = match contents (CQ_heap example_cq_a) !! workload.Key job_b with
        | Some _ => heapImpl.Len (CQ_heap example_cq_a)
        | None => S (heapImpl.Len (CQ_heap example_cq_a))
        end.
Proof.
  apply (PushOrUpdate_entries example_cq_a job_b).
  exists (mkApiClusterQueue StrictFIFO), new_cq, [OpPushOrUpdate job_a].
  split; [reflexivity|]. vm_compute. reflexivity.
Defined.

Lemma reachable_example_cq_a : reachable example_cq_a.
Proof.
  exists (mkApiClusterQueue StrictFIFO), new_cq, [OpPushOrUpdate job_a].
  split; [reflexivity|]. vm_compute. reflexivity.
Defined.

(** X20: [PushIfNotPresent] with a key that is not in the index stores
    the info as it is given, leaves every other entry as it was and
    returns true; a second call with the same info returns false and
    changes nothing. *)
Theorem PushIfNotPresent_new (cq : ClusterQueue) (info : workload.Info) :
  reachable cq →
  heapImpl_items (CQ_heap cq) !! workload.Key (workload.Obj info) = None →
  ∃ cq', ClusterQueue.PushIfNotPresent cq info = Some (true, cq')
    ∧ contents (CQ_heap cq')
      = <[workload.Key (workload.Obj info) := info]> (contents (CQ_heap cq))
    ∧ heapImpl.Len (CQ_heap cq') = S (heapImpl.Len (CQ_heap cq))
    ∧ ClusterQueue.PushIfNotPresent cq' info = Some (false, cq').
Proof.
  intros Hreach Hnone.
  destruct (PushIfNotPresent_absent cq info (reachable_inv cq Hreach) Hnone)
    as (cq' & Hpush & _ & Hc & Hlen).
  exists cq'. split; [done|]. split; [done|]. split; [done|].
  apply PushIfNotPresent_present.
  assert (contents (CQ_heap cq') !! workload.Key (workload.Obj info)
          = Some info) as H by by rewrite Hc, lookup_insert_eq.
  rewrite lookup_contents in H.
  destruct (heapImpl_items (CQ_heap cq') !! workload.Key (workload.Obj info));
    [by eexists|done].
Qed.

Lemma PushIfNotPresent_new_witness :
  ∃ cq', ClusterQueue.PushIfNotPresent example_cq_a (workload.NewInfo job_b)
         = Some (true, cq')
    ∧ contents (CQ_heap cq')
      = <[workload.Key job_b := workload.NewInfo job_b]>
          (contents (CQ_heap example_cq_a))
    ∧ heapImpl.Len (CQ_heap cq') = S (heapImpl.Len (CQ_heap example_cq_a))
    ∧ ClusterQueue.PushIfNotPresent cq' (workload.NewInfo job_b)
      = Some (false, cq').
Proof.
  apply (PushIfNotPresent_new example_cq_a (workload.NewInfo job_b)).
  - exact reachable_example_cq_a.
  - vm_compute. reflexivity.
Defined.

Lemma Delete_Len (cq cq' : ClusterQueue) (k : string) :
  cq_inv cq → cq_inv cq' →
  contents (CQ_heap cq') = delete k (contents (CQ_heap cq)) →
  heapImpl.Len (CQ_heap cq')
  = match contents (CQ_heap cq) !! k with
    | Some _ => heapImpl.Len (CQ_heap cq) - 1
    | None => heapImpl.Len (CQ_heap cq)
    end.
Proof.
  intros Hinv Hinv' Hc.
  rewrite (indexed_Len_contents _ (inv_indexed _ Hinv)).
  rewrite (indexed_Len_contents _ (inv_indexed _ Hinv')).
  rewrite Hc, map_size_delete.
  destruct (contents (CQ_heap cq) !! k); simpl; lia.
Qed.

(** X21: [Delete] removes the entry under the key of the workload and no
    other entry; when the key is not in the index the cluster queue is
    returned as it is. *)
Theorem Delete_entries (cq : ClusterQueue) (w : QueuedWorkload) :
  reachable cq →
  ∃ cq', ClusterQueue.Delete cq w = Some cq'
    ∧ contents (CQ_heap cq') = delete (workload.Key w) (contents (CQ_heap cq))
    ∧ heapImpl.Len (CQ_heap cq')
      = match contents (CQ_heap cq) !! workload.Key w with
        | Some _ => heapImpl.Len (CQ_heap cq) - 1
        | None => heapImpl.Len (CQ_heap cq)
        end
    ∧ (heapImpl_items (CQ_heap cq) !! workload.Key w = None → cq' = cq).
Proof.
  intros Hreach. pose proof (reachable_inv cq Hreach) as Hinv.
  destruct (Delete_spec cq w Hinv) as (cq' & Hdel & Hinv' & Hc).
  exists cq'. split; [done|]. split; [done|].
  split; [by apply Delete_Len|].
  intros Hnone. unfold ClusterQueue.Delete in Hdel. rewrite Hnone in Hdel.
  congruence.
Qed.

Lemma Delete_entries_witness :
  ∃ cq', ClusterQueue.Delete example_cq job_b = Some cq'
    ∧ contents (CQ_heap cq')
      = delete (workload.Key job_b) (contents (CQ_heap example_cq))
    ∧ heapImpl.Len (CQ_heap cq')
      = match contents (CQ_heap example_cq) !! workload.Key job_b with
        | Some _ => heapImpl.Len (CQ_heap example_cq) - 1
        | None => heapImpl.Len (CQ_heap example_cq)
        end
    ∧ (heapImpl_items (CQ_heap example_cq) !! workload.Key job_b = None →
       cq' = example_cq).
Proof. apply (Delete_entries example_cq job_b), reachable_example_cq. Defined.

(** X22: pushing a workload whose key is new and deleting it again gives
    back the entries, and the number of entries, the cluster queue had. *)
Theorem PushOrUpdate_Delete (cq : ClusterQueue) (w : QueuedWorkload) :
  reachable cq →
  heapImpl_items (CQ_heap cq) !! workload.Key w = None →
  ∃ cq1 cq2,
    ClusterQueue.PushOrUpdate cq w = Some cq1
    ∧ ClusterQueue.Delete cq1 w = Some cq2
    ∧ contents (CQ_heap cq2) = contents (CQ_heap cq)
    ∧ heapImpl.Len (CQ_heap cq2) = heapImpl.Len (CQ_heap cq).
Proof.
  intros Hreach Hnone. pose proof (reachable_inv cq Hreach) as Hinv.
  destruct (PushOrUpdate_spec cq w Hinv) as (cq1 & Hpush & Hinv1 & Hc1 & _).
  destruct (Delete_spec cq1 w Hinv1) as (cq2 & Hdel & Hinv2 & Hc2).
  exists cq1, cq2. split; [done|]. split; [done|].
  assert (contents (CQ_heap cq2) = contents (CQ_heap cq)) as Hc.
  { rewrite Hc2, Hc1. apply delete_insert_id.
    by rewrite lookup_contents, Hnone. }
  split; [done|].
  rewrite (indexed_Len_contents _ (inv_indexed _ Hinv)).
  rewrite (indexed_Len_contents _ (inv_indexed _ Hinv2)).
  by rewrite Hc.
Qed.

Lemma PushOrUpdate_Delete_witness :
  ∃ cq1 cq2,
    ClusterQueue.PushOrUpdate example_cq_a job_b = Some cq1
    ∧ ClusterQueue.Delete cq1 job_b = Some cq2
    ∧ contents (CQ_heap cq2) = contents (CQ_heap example_cq_a)
    ∧ heapImpl.Len (CQ_heap cq2) = heapImpl.Len (CQ_heap example_cq_a).
Proof.
  apply (PushOrUpdate_Delete example_cq_a job_b).
  - exact reachable_example_cq_a.
  - vm_compute. reflexivity.
Defined.

(** ** Repeating an operation *)

Lemma down_ordered (h : heapImpl) (i : nat) :
  strict_weak (heapImpl_less h) → indexed h → heap_ordered h →
  heap.down h i (heapImpl.Len h) = Some (h, false).
Proof.
  intros Hsw Hh Hord. unfold heap.down. rewrite down_loop_S.
  destruct (decide (heapImpl.Len h ≤ 2 * i + 1)) as [Hleaf|Hleaf].
  { simpl. by rewrite bool_decide_eq_false_2 by lia. }
  destruct (down_child h i (heapImpl.Len h) Hsw Hh)
    as (j & -> & Hpj & Hj & _); [lia..|].
  simpl. pose proof (Hord j) as Hoj. unfold above_parent in Hoj.
  rewrite Hpj in Hoj. rewrite Hoj by lia. simpl.
  by rewrite bool_decide_eq_false_2 by lia.
Qed.

Lemma up_ordered (h : heapImpl) (i : nat) :
  heap_ordered h → i < heapImpl.Len h → heap.up h i = Some h.
Proof.
  intros Hord Hi. unfold heap.up. rewrite up_loop_S.
  destruct (decide (parent i = i)) as [E|E]; [done|].
  pose proof (parent_spec i). pose proof (Hord i) as Hoi.
  unfold above_parent in Hoi. rewrite Hoi by lia. done.
Qed.

(** [Fix] on a heap that is already ordered moves nothing. *)
Lemma Fix_ordered (h : heapImpl) (i : nat) :
  strict_weak (heapImpl_less h) → indexed h → heap_ordered h →
  i < heapImpl.Len h → heap.Fix h i = Some h.
Proof.
  intros Hsw Hh Hord Hi. unfold heap.Fix.
  rewrite down_ordered by done. simpl. by apply up_ordered.
Qed.

(** X23: [PushOrUpdate] with the same workload a second time leaves the
    cluster queue, its backing array included, exactly as the first call
    left it. *)
Theorem PushOrUpdate_idempotent (cq : ClusterQueue) (w : QueuedWorkload) :
  reachable cq →
  ∃ cq', ClusterQueue.PushOrUpdate cq w = Some cq'
         ∧ ClusterQueue.PushOrUpdate cq' w = Some cq'.
Proof.
  intros Hreach.
  destruct (PushOrUpdate_spec cq w (reachable_inv cq Hreach))
    as (cq' & Hpush & Hinv' & Hc & _).
  exists cq'. split; [done|].
  assert (contents (CQ_heap cq') !! workload.Key w
          = Some (workload.NewInfo w)) as Hw by by rewrite Hc, lookup_insert_eq.
  rewrite lookup_contents in Hw.
  destruct (heapImpl_items (CQ_heap cq') !! workload.Key w)
    as [item|] eqn:Hitem; [|done].
  injection Hw as Hobj.
  unfold ClusterQueue.PushOrUpdate. rewrite Hitem.
  assert (mkHeapItem (workload.NewInfo w) (index item) = item) as ->.
  { destruct item. simpl in *. by subst. }
  rewrite insert_id by done.
  assert (mkHeapImpl (heapImpl_items (CQ_heap cq'))
                     (heapImpl_heap (CQ_heap cq'))
                     (heapImpl_less (CQ_heap cq')) = CQ_heap cq') as ->
    by by destruct (CQ_heap cq').
  rewrite Fix_ordered; [by destruct cq'|by apply cq_inv_sw|apply Hinv'..|].
  pose proof (indexed_items _ (inv_indexed _ Hinv') _ _ Hitem) as Hpos.
  by eapply lookup_lt_Some.
Qed.

Lemma PushOrUpdate_idempotent_witness :
  ∃ cq', ClusterQueue.PushOrUpdate example_cq job_c = Some cq'
         ∧ ClusterQueue.PushOrUpdate cq' job_c = Some cq'.
Proof.
  apply (PushOrUpdate_idempotent example_cq job_c), reachable_example_cq.
Defined.

(** ** Bulk transfers, again *)

Lemma AddFromQueue_range_present (ws : list workload.Info) : ∀ added cq,
  Forall (λ w, is_Some (heapImpl_items (CQ_heap cq)
                        !! workload.Key (workload.Obj w))) ws →
  ClusterQueue.AddFromQueue_range ws added cq = Some (added, cq).
Proof.
  induction ws as [|w ws IH]; intros added cq Hall; simpl; [done|].
  apply Forall_cons in Hall as [Hw Hall].
  rewrite PushIfNotPresent_present by done. simpl. by apply IH.
Qed.

(** X24: after [AddFromQueue] every item of the queue is in the index, and
    a second [AddFromQueue] of the same queue, in whatever order it visits
    the items, returns false and leaves the cluster queue as it is. *)
Theorem AddFromQueue_twice (cq : ClusterQueue) (q : Queue)
    (ws ws' : list workload.Info) :
  reachable cq → reachable_queue q → visits q ws → visits q ws' →
  ∃ b cq',
    ClusterQueue.AddFromQueue_range ws false cq = Some (b, cq')
    ∧ (∀ w, w ∈ ws →
            contents (CQ_heap cq') !! workload.Key (workload.Obj w)
            = Some w
            ∨ is_Some (contents (CQ_heap cq)
                       !! workload.Key (workload.Obj w)))
    ∧ ClusterQueue.AddFromQueue_range ws' false cq' = Some (false, cq').
Proof.
  intros Hreach Hq Hv Hv'.
  pose proof (visits_NoDup q ws (reachable_queue_keyed q Hq) Hv) as Hnd.
  destruct (AddFromQueue_range_count ws false cq (reachable_inv cq Hreach) Hnd)
    as (cq' & Hrun & _ & _ & Hold & Hnew).
  eexists _, cq'. split; [done|].
  assert (∀ w, w ∈ ws →
            contents (CQ_heap cq') !! workload.Key (workload.Obj w) = Some w
            ∨ is_Some (contents (CQ_heap cq)
                       !! workload.Key (workload.Obj w))) as Hin.
  { intros w Hw.
    destruct (contents (CQ_heap cq) !! workload.Key (workload.Obj w))
      as [y|] eqn:E; [right; by eexists|left].
    apply Hnew. unfold absent. apply list_elem_of_filter. split; [|done].
    by apply items_None_contents. }
  split; [done|].
  apply AddFromQueue_range_present. apply Forall_forall. intros w Hw.
  assert (w ∈ ws) as Hw' by (unfold visits in *; by rewrite Hv, <- Hv').
  assert (is_Some (contents (CQ_heap cq')
                   !! workload.Key (workload.Obj w))) as [y Hy].
  { destruct (Hin w Hw') as [H|[y H]]; [by eexists|].
    eexists. by apply Hold. }
  rewrite lookup_contents in Hy.
  destruct (heapImpl_items (CQ_heap cq') !! workload.Key (workload.Obj w));
    [by eexists|done].
Qed.

Lemma AddFromQueue_twice_witness :
  let ws := (map_to_list (Queue_items example_queue)).*2 in
  ∃ b cq',
    ClusterQueue.AddFromQueue_range ws false example_cq_a = Some (b, cq')
    ∧ (∀ w, w ∈ ws →
            contents (CQ_heap cq') !! workload.Key (workload.Obj w)
            = Some w
            ∨ is_Some (contents (CQ_heap example_cq_a)
                       !! workload.Key (workload.Obj w)))
    ∧ ClusterQueue.AddFromQueue_range ws false cq' = Some (false, cq').
Proof.
  apply (AddFromQueue_twice example_cq_a example_queue
           (map_to_list (Queue_items example_queue)).*2
           (map_to_list (Queue_items example_queue)).*2).
  - exact reachable_example_cq_a.
  - unfold example_queue. repeat constructor.
  - unfold visits. reflexivity.
  - unfold visits. reflexivity.
Defined.

Lemma DeleteFromQueue_range_contents (ws : list workload.Info) : ∀ cq,
  cq_inv cq →
  ∃ cq', ClusterQueue.DeleteFromQueue_range ws cq = Some cq'
    ∧ cq_inv cq'
    ∧ ∀ k, contents (CQ_heap cq') !! k
           = if decide (k ∈ keys_of ws) then None
             else contents (CQ_heap cq) !! k.
Proof.
  induction ws as [|w ws IH]; intros cq Hinv.
  - exists cq. split; [done|]. split; [done|]. intros k.
    destruct (decide (k ∈ keys_of [])) as [H|H]; [|done].
    by apply elem_of_nil in H.
  - cbn [ClusterQueue.DeleteFromQueue_range].
    destruct (Delete_spec cq (workload.Obj w) Hinv) as (cq1 & -> & Hinv1 & Hc1).
    cbn [mbind option_bind].
    destruct (IH cq1 Hinv1) as (cq' & -> & Hinv' & Hc').
    exists cq'. split; [done|]. split; [done|]. intros k.
    rewrite Hc', Hc1.
    change (keys_of (w :: ws))
      with (workload.Key (workload.Obj w) :: keys_of ws).
    destruct (decide (k ∈ keys_of ws)) as [Hin|Hin];
      destruct (decide (k ∈ workload.Key (workload.Obj w) :: keys_of ws))
        as [Hin'|Hin']; try done.
    + exfalso. by apply Hin', list_elem_of_further.
    + apply elem_of_cons in Hin' as [->|?]; [|done].
      by rewrite lookup_delete_eq.
    + apply not_elem_of_cons in Hin' as [Hne _].
      by rewrite lookup_delete_ne.
Qed.

(** X25: [DeleteFromQueue], visiting the items in any order, removes from
    the index every entry whose key is the key of an item and no other
    entry. *)
Theorem DeleteFromQueue_contents (cq : ClusterQueue)
    (ws : list workload.Info) :
  reachable cq →
  ∃ cq', ClusterQueue.DeleteFromQueue_range ws cq = Some cq'
    ∧ ∀ k, contents (CQ_heap cq') !! k
           = if decide (k ∈ keys_of ws) then None
             else contents (CQ_heap cq) !! k.
Proof.
  intros Hreach.
  destruct (DeleteFromQueue_range_contents ws cq (reachable_inv cq Hreach))
    as (cq' & Hrun & _ & Hc).
  by exists cq'.
Qed.

Lemma DeleteFromQueue_contents_witness :
  ∃ cq', ClusterQueue.DeleteFromQueue example_cq example_queue = Some cq'
    ∧ ∀ k, contents (CQ_heap cq') !! k
           = if decide (k ∈ keys_of (map_to_list
                                       (Queue_items example_queue)).*2)
             then None
             else contents (CQ_heap example_cq) !! k.
Proof.
  apply (DeleteFromQueue_contents example_cq
           (map_to_list (Queue_items example_queue)).*2).
  exact reachable_example_cq.
Defined.

Lemma AddFromQueue_range_contents (ws : list workload.Info) : ∀ added cq,
  cq_inv cq →
  ∃ b cq', ClusterQueue.AddFromQueue_range ws added cq = Some (b, cq')
    ∧ cq_inv cq'
    ∧ (∀ k y, contents (CQ_heap cq) !! k = Some y →
              contents (CQ_heap cq') !! k = Some y)
    ∧ (∀ k y, contents (CQ_heap cq') !! k = Some y →
              contents (CQ_heap cq) !! k = Some y
              ∨ (y ∈ ws ∧ k = workload.Key (workload.Obj y))).
Proof.
  induction ws as [|w ws IH]; intros added cq Hinv.
  - exists added, cq. split; [done|]. split; [done|]. split; [done|].
    intros k y Hy. by left.
  - cbn [ClusterQueue.AddFromQueue_range].
    destruct (heapImpl_items (CQ_heap cq) !! workload.Key (workload.Obj w))
      as [it|] eqn:Hit.
    + rewrite PushIfNotPresent_present by eauto. cbn [mbind option_bind].
      destruct (IH added cq Hinv) as (b & cq' & -> & Hinv' & Hold & Hnew).
      exists b, cq'. split; [done|]. split; [done|]. split; [done|].
      intros k y Hy. destruct (Hnew k y Hy) as [?|[? ?]]; [by left|right].
      split; [by apply list_elem_of_further|done].
    + destruct (PushIfNotPresent_absent cq w Hinv Hit)
        as (cq1 & -> & Hinv1 & Hc1 & _).
      cbn [mbind option_bind].
      destruct (IH true cq1 Hinv1) as (b & cq' & -> & Hinv' & Hold & Hnew).
      exists b, cq'. split; [done|]. split; [done|]. split.
      * intros k y Hy. apply Hold. rewrite Hc1.
        destruct (decide (workload.Key (workload.Obj w) = k)) as [<-|Hne].
        -- apply items_None_contents in Hit. congruence.
        -- by rewrite lookup_insert_ne.
      * intros k y Hy. destruct (Hnew k y Hy) as [Hy1|[? ?]].
        -- rewrite Hc1 in Hy1.
           apply lookup_insert_Some in Hy1 as [[<- <-]|[_ ?]]; [right|by left].
           split; [apply list_elem_of_here|done].
        -- right. split; [by apply list_elem_of_further|done].
Qed.

(** X26: when no item of a queue is in the index, [AddFromQueue] followed
    by [DeleteFromQueue] of the same queue, each in whatever order it
    visits the items, gives back the entries and the number of entries
    the cluster queue had. *)
Theorem AddFromQueue_DeleteFromQueue (cq : ClusterQueue) (q : Queue)
    (ws ws' : list workload.Info) :
  reachable cq → visits q ws → visits q ws' →
  Forall (λ w, heapImpl_items (CQ_heap cq)
               !! workload.Key (workload.Obj w) = None) ws →
  ∃ b cq1 cq2,
    ClusterQueue.AddFromQueue_range ws false cq = Some (b, cq1)
    ∧ ClusterQueue.DeleteFromQueue_range ws' cq1 = Some cq2
    ∧ contents (CQ_heap cq2) = contents (CQ_heap cq)
    ∧ heapImpl.Len (CQ_heap cq2) = heapImpl.Len (CQ_heap cq).
Proof.
  intros Hreach Hv Hv' Habs. pose proof (reachable_inv cq Hreach) as Hinv.
  destruct (AddFromQueue_range_contents ws false cq Hinv)
    as (b & cq1 & Hadd & Hinv1 & Hold & Hnew).
  destruct (DeleteFromQueue_range_contents ws' cq1 Hinv1)
    as (cq2 & Hdel & Hinv2 & Hc2).
  exists b, cq1, cq2. split; [done|]. split; [done|].
  assert (ws' ≡ₚ ws) as Hperm by (unfold visits in *; by rewrite Hv, Hv').
  assert (contents (CQ_heap cq2) = contents (CQ_heap cq)) as Hc.
  { apply map_eq. intros k. rewrite Hc2.
    destruct (decide (k ∈ keys_of ws')) as [Hk|Hk].
    - apply list_elem_of_fmap in Hk as (w & -> & Hw). rewrite Hperm in Hw.
      rewrite List.Forall_forall in Habs. symmetry.
      apply items_None_contents, Habs. by apply list_elem_of_In.
    - destruct (contents (CQ_heap cq1) !! k) as [y|] eqn:E1.
      + destruct (Hnew k y E1) as [?|[Hy ->]]; [done|].
        exfalso. apply Hk. rewrite <- Hperm in Hy.
        by apply (list_elem_of_fmap_2
                    (λ w, workload.Key (workload.Obj w))).
      + destruct (contents (CQ_heap cq) !! k) as [y|] eqn:E; [|done].
        apply Hold in E. congruence. }
  split; [done|].
  rewrite (indexed_Len_contents _ (inv_indexed _ Hinv)).
  rewrite (indexed_Len_contents _ (inv_indexed _ Hinv2)).
  by rewrite Hc.
Qed.

Lemma AddFromQueue_DeleteFromQueue_witness :
  let ws := (map_to_list (Queue_items example_queue)).*2 in
  ∃ b cq1 cq2,
    ClusterQueue.AddFromQueue_range ws false new_cq = Some (b, cq1)
    ∧ ClusterQueue.DeleteFromQueue_range ws cq1 = Some cq2
    ∧ contents (CQ_heap cq2) = contents (CQ_heap new_cq)
    ∧ heapImpl.Len (CQ_heap cq2) = heapImpl.Len (CQ_heap new_cq).
Proof.
  apply (AddFromQueue_DeleteFromQueue new_cq example_queue
           (map_to_list (Queue_items example_queue)).*2
           (map_to_list (Queue_items example_queue)).*2).
  - exists (mkApiClusterQueue StrictFIFO), new_cq, []. by split.
  - unfold visits. reflexivity.
  - unfold visits. reflexivity.
  - apply Forall_forall. intros w _. reflexivity.
Defined.
